(** * Kurisu, [cogs/automod.py]: the AutoMod keyword-filter cog

    A shallow embedding of the cog's four entry points
    ([rules_autocomplete], [search_keyword], [add_keyword],
    [delete_keyword]) and of its event listener ([on_automod_action]),
    followed by the properties of the specification that concern them.

    Python values are embedded as follows.
    - [str] is [string]; [a in b] on strings is the substring test
      [str_in]; f-strings are concatenations; [str(n)] on an integer is
      stdpp's decimal [pretty].
    - [list] is [list]; [x in l] is decidable membership, [l.append(x)]
      is [l ++ [x]], [l.remove(x)] deletes the first occurrence.
    - [dict] keeps insertion order and is iterated in that order, so the
      [matches] dictionary is an association list ([dict_set],
      [dict_append]).
    - The [rule] argument of the commands is a mutable object: the
      commands run in a state monad whose state holds that object, the
      bot's [actions] list and the trace of calls made to the outside
      (messages sent, rule edits, kicks).
    - What the Discord API answers is not decided by the cog: the answers
      to [rule.edit] and [member.kick] are parameters of the embedding. *)

From stdpp Require Import base list strings pretty.

Local Open Scope string_scope.
Local Open Scope list_scope.

(** ** Strings *)

(** Line feed, the [\n] of the Python literals. *)
Definition LF : string := String (Ascii.Ascii false true false true false false false false) EmptyString.

(** [word in keyword] for two [str]: is [word] a contiguous part of
    [keyword]?  Tried at every start position, from the left. *)
Fixpoint str_in (word keyword : string) : bool :=
  String.prefix word keyword ||
  match keyword with
  | EmptyString => false
  | String _ rest => str_in word rest
  end.

(** [sep.join(parts)]. *)
Fixpoint join (sep : string) (parts : list string) : string :=
  match parts with
  | [] => ""
  | [p] => p
  | p :: ps => p +:+ sep +:+ join sep ps
  end.

(** The mathematical notion the substring test decides. *)
Definition substring_of (word keyword : string) : Prop :=
  ∃ pre post, keyword = pre +:+ word +:+ post.

(** ** Lists and dictionaries *)

(** [l.remove(x)]: the first element equal to [x] is deleted;
    [None] stands for the [ValueError] raised when there is none. *)
Fixpoint list_remove_first (x : string) (l : list string) : option (list string) :=
  match l with
  | [] => None
  | y :: l' =>
      if decide (y = x) then Some l'
      else match list_remove_first x l' with
           | Some r => Some (y :: r)
           | None => None
           end
  end.

(** An insertion-ordered dictionary with [str] keys. *)
Abbreviation dict V := (list (string * V)) (only parsing).

(** [d[k] = v]: an existing key keeps its position and takes the new
    value, a new key goes last. *)
Fixpoint dict_set {V} (k : string) (v : V) (d : dict V) : dict V :=
  match d with
  | [] => [(k, v)]
  | (k', v') :: d' =>
      if decide (k' = k) then (k, v) :: d' else (k', v') :: dict_set k v d'
  end.

(** [d[k].append(x)] for a dictionary of lists.  ([KeyError] on a missing
    key is not represented: the cog only appends under a key it has just
    assigned.) *)
Fixpoint dict_append {A} (k : string) (x : A) (d : dict (list A)) : dict (list A) :=
  match d with
  | [] => []
  | (k', v') :: d' =>
      if decide (k' = k) then (k', v' ++ [x]) :: d' else (k', v') :: dict_append k x d'
  end.

(** ** Discord data *)

(** [discord.AutoModRuleTriggerType]. *)
Inductive AutoModRuleTriggerType :=
  | keyword
  | harmful_link
  | spam
  | keyword_preset
  | mention_spam
  | member_profile.

Global Instance AutoModRuleTriggerType_eq_dec : EqDecision AutoModRuleTriggerType.
Proof. solve_decision. Defined.

(** [discord.AutoModTrigger], with the attributes the cog reads. *)
Record AutoModTrigger := mkTrigger {
  type : AutoModRuleTriggerType;
  keyword_filter : list string;
  regex_patterns : list string
}.

(** [discord.AutoModRule], with the attributes the cog reads. *)
Record AutoModRule := mkRule {
  id : Z;
  name : string;
  trigger : AutoModTrigger
}.

Global Instance AutoModTrigger_eq_dec : EqDecision AutoModTrigger.
Proof. solve_decision. Defined.

Global Instance AutoModRule_eq_dec : EqDecision AutoModRule.
Proof. solve_decision. Defined.

Definition set_keyword_filter (l : list string) (r : AutoModRule) : AutoModRule :=
  mkRule (id r) (name r) (mkTrigger (type (trigger r)) l (regex_patterns (trigger r))).

Definition set_regex_patterns (l : list string) (r : AutoModRule) : AutoModRule :=
  mkRule (id r) (name r) (mkTrigger (type (trigger r)) (keyword_filter (trigger r)) l).

(** [app_commands.Choice(name=..., value=...)]. *)
Record Choice := mkChoice {
  choice_name : string;
  choice_value : string
}.

(** [discord.File] as built by [text_to_discord_file(text, name=...)]. *)
Record File := mkFile {
  file_text : string;
  file_name : string
}.

Definition text_to_discord_file (text name : string) : File := mkFile text name.

(** [discord.Member]. *)
Record Member := mkMember {
  member_id : Z
}.

(** What [await action.fetch_rule()] does: it gives a rule (or [None]),
    or it raises. *)
Inductive Fetched :=
  | FetchReturns (r : option AutoModRule)
  | FetchRaises (e : string).

(** [discord.AutoModAction]: the outcome of resolving its rule, and its
    [member] attribute. *)
Record AutoModAction := mkAction {
  fetch_rule_outcome : Fetched;
  member : option Member
}.

(** ** Effects *)

(** Calls that leave the cog, in the order they are made. *)
Inductive Effect :=
  | SendMessage (content : string) (ephemeral : bool) (file : option File)
  | RuleEdit (rule_id : Z) (new_trigger : AutoModTrigger)
  | ActionsAppend (tag : string)
  | MemberKick (who : Z) (reason : string).

(** The state a handler runs in.  [search_keyword] and
    [on_automod_action] have no [rule] parameter and leave that field
    alone. *)
Record World := mkWorld {
  rule : AutoModRule;        (* the object bound to the [rule] parameter *)
  actions : list string;     (* [self.bot.actions] *)
  trace : list Effect
}.

(** How a block of statements ends: it falls through with a value, it
    executes [return], or an exception leaves it. *)
Inductive Ctl (A : Type) :=
  | Next (a : A)
  | Returned
  | Raised (e : string).
Arguments Next {A} a.
Arguments Returned {A}.
Arguments Raised {A} e.

Definition M (A : Type) : Type := World → Ctl A * World.

Definition ret {A} (a : A) : M A := λ w, (Next a, w).

Definition bind {A B} (m : M A) (f : A → M B) : M B := λ w,
  match m w with
  | (Next a, w') => f a w'
  | (Returned, w') => (Returned, w')
  | (Raised e, w') => (Raised e, w')
  end.

Declare Scope cmd_scope.
Notation "x ← y ; z" := (bind y (λ x : _, z))
  (at level 20, y at level 100, z at level 200, only parsing) : cmd_scope.
Notation "x ;; z" := (bind x (λ _, z))
  (at level 100, z at level 200, only parsing, right associativity) : cmd_scope.
Local Open Scope cmd_scope.

(** The [return] statement. *)
Definition return_ {A} : M A := λ w, (Returned, w).

(** [raise]. *)
Definition raise {A} (e : string) : M A := λ w, (Raised e, w).

(** [try: body except discord.HTTPException as e: handler].  The two
    [try] bodies of the cog are the single call [rule.edit], and the only
    exception [rule_edit] below can raise is a [discord.HTTPException]
    (see there), so the handler takes whatever the body raises. *)
Definition try_except {A} (body : M A) (handler : string → M A) : M A := λ w,
  match body w with
  | (Raised e, w') => handler e w'
  | other => other
  end.

Definition emit (e : Effect) : M unit := λ w,
  (Next (), mkWorld (rule w) (actions w) (trace w ++ [e])).

Definition get_rule : M AutoModRule := λ w, (Next (rule w), w).

Definition put_rule (r : AutoModRule) : M unit := λ w,
  (Next (), mkWorld r (actions w) (trace w)).

(** [await interaction.response.send_message(content, ephemeral=..., file=...)].
    The message is taken to be delivered: a failure of this call, which
    no handler in the cog catches, is not represented. *)
Definition send_message (content : string) (ephemeral : bool) (file : option File) : M unit :=
  emit (SendMessage content ephemeral file).

(** [self.bot.actions.append(tag)]. *)
Definition actions_append (tag : string) : M unit := λ w,
  (Next (), mkWorld (rule w) (actions w ++ [tag]) (trace w ++ [ActionsAppend tag])).

(** The world after running a command, and how the command ended. *)
Definition exec {A} (m : M A) (w : World) : World := (m w).2.
Definition outcome {A} (m : M A) (w : World) : Ctl A := (m w).1.

(** A command starts with its [rule] argument, the bot's log as it is
    and no call made yet. *)
Definition start (r : AutoModRule) (log : list string) : World := mkWorld r log [].

(** ** The cog *)

(** [rules_autocomplete], given the rules that
    [interaction.guild.fetch_automod_rules()] returned. *)
Definition rules_autocomplete (rules : list AutoModRule) (current : string) : list Choice :=
  if decide (current ≠ "") then
    fold_left
      (λ choices rule,
         if bool_decide (type (trigger rule) = keyword) && str_in current (name rule)
         then choices ++ [mkChoice (name rule) (pretty (id rule))]
         else choices)
      rules []
  else
    omap
      (λ rule,
         if decide (type (trigger rule) = keyword)
         then Some (mkChoice (name rule) (pretty (id rule)))
         else None)
      rules.

(** The line recorded for a keyword that matches. *)
Definition describe (word kw : string) : string := kw +:+ " contains " +:+ word.

(** Body of the inner loop of [search_keyword], for one keyword of the
    rule called [rule_name]. *)
Definition search_keyword_step (word rule_name : string)
    (st : dict (list string) * nat) (kw : string) : dict (list string) * nat :=
  let '(matches, count) := st in
  if str_in word kw
  then (dict_append rule_name (describe word kw) matches, S count)
  else (matches, count).

(** Body of the outer loop of [search_keyword], for one rule. *)
Definition search_rule_step (word : string)
    (st : dict (list string) * nat) (rule : AutoModRule) : dict (list string) * nat :=
  let '(matches, count) := st in
  if decide (type (trigger rule) ≠ keyword) then (matches, count)
  else fold_left (search_keyword_step word (name rule))
         (keyword_filter (trigger rule))
         (dict_set (name rule) [] matches, count).

(** The first loop of [search_keyword]: it fills [matches] and [count]. *)
Definition search_rules (word : string) (rules : list AutoModRule) : dict (list string) * nat :=
  fold_left (search_rule_step word) rules ([], 0).

(** The text built for one rule. *)
Definition rule_text (rule_name : string) (found : list string) : string :=
  "Rule " +:+ rule_name +:+ ":" +:+ LF +:+ "  " +:+ join ("  " +:+ LF) found.

(** Body of the second loop of [search_keyword]: [text] is assigned, not
    extended, at every rule that has matches. *)
Definition search_text_step (text : string) (entry : string * list string) : string :=
  let '(rule_name, found) := entry in
  match found with
  | [] => text
  | _ => rule_text rule_name found
  end.

Definition search_text (matches : dict (list string)) : string :=
  fold_left search_text_step matches "".

(** [AutoMod.search_keyword], given the fetched rules. *)
Definition search_keyword (rules : list AutoModRule) (word : string) : M unit :=
  let '(matches, count) := search_rules word rules in
  if decide (count = 0) then
    send_message "No match found." false None ;; return_
  else
    send_message (pretty count +:+ " matches found.") false
      (Some (text_to_discord_file (search_text matches) "matches.txt")).

Section Remote.

(** [await rule.edit(trigger=t)] on the rule with the given id: [None]
    when Discord accepts the edit, [Some e] when it answers with an
    [HTTPException] whose text is [e]. *)
Variable http_edit : Z → AutoModTrigger → option string.

(** [await member.kick(reason=...)], likewise. *)
Variable http_kick : Z → string → option string.

(** [await rule.edit(trigger=t)].  Two outcomes are represented, the
    ones [http_edit] ranges over: the edit is accepted, or Discord answers
    with a [discord.HTTPException].  An exception of another class, which
    [except discord.HTTPException] would let through, is not
    represented. *)
Definition rule_edit (r : AutoModRule) (t : AutoModTrigger) : M unit :=
  emit (RuleEdit (id r) t) ;;
  match http_edit (id r) t with
  | None => ret ()
  | Some e => raise e
  end.

Definition member_kick (m : Member) (reason : string) : M unit :=
  emit (MemberKick (member_id m) reason) ;;
  match http_kick (member_id m) reason with
  | None => ret ()
  | Some e => raise e
  end.

(** [rule.trigger.regex_patterns.append(x)] and its three siblings:
    they change the object held in the world. *)
Definition regex_patterns_append (x : string) : M unit :=
  r ← get_rule; put_rule (set_regex_patterns (regex_patterns (trigger r) ++ [x]) r).

Definition keyword_filter_append (x : string) : M unit :=
  r ← get_rule; put_rule (set_keyword_filter (keyword_filter (trigger r) ++ [x]) r).

Definition regex_patterns_remove (x : string) : M unit :=
  r ← get_rule;
  match list_remove_first x (regex_patterns (trigger r)) with
  | Some l => put_rule (set_regex_patterns l r)
  | None => raise "ValueError"
  end.

Definition keyword_filter_remove (x : string) : M unit :=
  r ← get_rule;
  match list_remove_first x (keyword_filter (trigger r)) with
  | Some l => put_rule (set_keyword_filter l r)
  | None => raise "ValueError"
  end.

(** [AutoMod.add_keyword]. *)
Definition add_keyword (kw : string) (regex : bool) : M unit :=
  rule ← get_rule;
  (if decide (type (trigger rule) ≠ keyword) then
     send_message "This automod rule doesn't have a keyword filter." true None ;;
     return_
   else ret ()) ;;
  (if regex then
     if decide (kw ∈ regex_patterns (trigger rule)) then
       send_message "This regex expression is already in the filter." true None ;;
       return_
     else regex_patterns_append kw
   else
     if decide (kw ∈ keyword_filter (trigger rule)) then
       send_message "This keyword is already in the filter." true None ;;
       return_
     else keyword_filter_append kw) ;;
  try_except
    (rule ← get_rule; rule_edit rule (trigger rule))
    (λ e, send_message ("Failed to add keyword: " +:+ e +:+ ".") true None ;;
          return_) ;;
  rule ← get_rule;
  send_message
    ("Added keyword " +:+ kw +:+ " to " +:+ name rule +:+ " Automod rule succesfully.")
    true None.

(** [AutoMod.delete_keyword]. *)
Definition delete_keyword (kw : string) (regex : bool) : M unit :=
  rule ← get_rule;
  (if decide (type (trigger rule) ≠ keyword) then
     send_message "This AutoMod rule doesn't have a keyword filter." true None ;;
     return_
   else ret ()) ;;
  (if regex then
     if decide (kw ∉ regex_patterns (trigger rule)) then
       send_message "This regex expression is not in the filter." true None ;;
       return_
     else regex_patterns_remove kw
   else
     if decide (kw ∉ keyword_filter (trigger rule)) then
       send_message "This keyword is not in the filter." true None ;;
       return_
     else keyword_filter_remove kw) ;;
  try_except
    (rule ← get_rule; rule_edit rule (trigger rule))
    (λ e, send_message ("Failed to delete keyword: " +:+ e +:+ ".") true None ;;
          return_) ;;
  rule ← get_rule;
  send_message
    ("Deleted keyword " +:+ kw +:+ " from " +:+ name rule +:+ " automod rule succesfully.")
    true None.

(** [await action.fetch_rule()]. *)
Definition fetch_rule (action : AutoModAction) : M (option AutoModRule) :=
  match fetch_rule_outcome action with
  | FetchReturns r => ret r
  | FetchRaises e => raise e
  end.

(** [AutoMod.on_automod_action].  A rule or member object is truthy, so
    [not rule or not action.member] tests for [None]. *)
Definition on_automod_action (action : AutoModAction) : M unit :=
  rule ← fetch_rule action;
  match rule, member action with
  | Some rule, Some who =>
      if decide (name rule = "Scams") then
        actions_append ("wk:" +:+ pretty (member_id who)) ;;
        member_kick who "Suspicious behavior"
      else ret ()
  | _, _ => return_
  end.

End Remote.

(** What [await interaction.guild.fetch_automod_rule(rule_id)] does: it
    gives the rule, raises [discord.NotFound], or raises something else. *)
Inductive RuleLookup :=
  | LookupReturns (r : AutoModRule)
  | LookupNotFound
  | LookupRaises (e : string).

Global Instance RuleLookup_eq_dec : EqDecision RuleLookup.
Proof. solve_decision. Defined.

Global Instance Choice_eq_dec : EqDecision Choice.
Proof. solve_decision. Defined.

Section Guild.

(** The builtin [int] on a [str]: [None] when it raises [ValueError]. *)
Variable py_int : string → option Z.

Variable fetch_automod_rule : Z → RuleLookup.

(** [AutoModRuleTransformer.transform]: the rule it returns, or the text
    of the exception that leaves it.  [int(value)] is evaluated inside the
    [try], whose handler catches [discord.NotFound] only. *)
Definition transform (value : string) : AutoModRule + string :=
  match py_int value with
  | None => inr "ValueError"
  | Some rule_id =>
      match fetch_automod_rule rule_id with
      | LookupReturns r => inl r
      | LookupNotFound => inr "TransformerError: Automod rule not found."
      | LookupRaises e => inr e
      end
  end.

End Guild.

(** * Specification-level notions *)

Definition is_keyword_rule (r : AutoModRule) : Prop := type (trigger r) = keyword.

Global Instance is_keyword_rule_dec r : Decision (is_keyword_rule r).
Proof. unfold is_keyword_rule. apply _. Defined.

(** The substring test decides the substring relation; the instance
    below lets the notions of this part be stated with the relation. *)

Lemma prefix_nil (k : string) : String.prefix "" k = true.
Proof. by destruct k. Qed.

Lemma app_String (a : Ascii.ascii) (s t : string) :
  String a s +:+ t = String a (s +:+ t).
Proof. reflexivity. Qed.

Lemma prefix_spec (w k : string) :
  String.prefix w k = true ↔ ∃ post, k = w +:+ post.
Proof.
  revert k. induction w as [|a w IH]; intros k.
  - rewrite prefix_nil. split; [|done]. intros _. by exists k.
  - destruct k as [|b k]; simpl.
    + split; [done|]. by intros [post ?].
    + setoid_rewrite app_String.
      destruct (Ascii.ascii_dec a b) as [->|Hne].
      * rewrite IH. split; intros [post Hk]; exists post; congruence.
      * split; [done|]. intros [post Hk]. congruence.
Qed.

Lemma str_in_cons (w : string) (b : Ascii.ascii) (k : string) :
  str_in w (String b k) = String.prefix w (String b k) || str_in w k.
Proof. reflexivity. Qed.

Lemma str_in_EmptyString (w : string) : str_in w "" = String.prefix w "".
Proof. apply orb_false_r. Qed.

Lemma str_in_spec (w k : string) : str_in w k = true ↔ substring_of w k.
Proof.
  unfold substring_of. induction k as [|b k IH].
  - rewrite str_in_EmptyString, prefix_spec. split.
    + intros [post Hk]. by exists "", post.
    + intros [pre [post Hk]]. destruct pre as [|c pre]; [|done].
      by exists post.
  - rewrite str_in_cons, orb_true_iff, prefix_spec, IH. split.
    + intros [[post Hk]|[pre [post Hk]]].
      * by exists "", post.
      * exists (String b pre), post. rewrite app_String. by rewrite Hk.
    + intros [pre [post Hk]]. destruct pre as [|c pre].
      * left. by exists post.
      * right. exists pre, post. rewrite app_String in Hk. congruence.
Qed.

Global Instance substring_of_dec w k : Decision (substring_of w k).
Proof.
  refine (cast_if (decide (str_in w k = true))); by rewrite <-str_in_spec.
Defined.

Lemma str_in_decide (w k : string) : str_in w k = bool_decide (substring_of w k).
Proof.
  destruct (str_in w k) eqn:E; symmetry.
  - apply bool_decide_eq_true, str_in_spec, E.
  - apply bool_decide_eq_false. rewrite <-str_in_spec. congruence.
Qed.

Lemma substring_of_nil (k : string) : substring_of "" k.
Proof. by exists "", k. Qed.

(** The literal keywords of a rule that contain [word], in filter order. *)
Definition found_in (word : string) (r : AutoModRule) : list string :=
  filter (substring_of word) (keyword_filter (trigger r)).

(** What one rule contributes to the number of matches. *)
Definition match_count (word : string) (r : AutoModRule) : nat :=
  if decide (is_keyword_rule r) then length (found_in word r) else 0.

Definition match_total (word : string) (rules : list AutoModRule) : nat :=
  sum_list (match_count word <$> rules).

(** A keyword rule with at least one literal keyword containing [word]. *)
Definition has_match (word : string) (r : AutoModRule) : Prop :=
  is_keyword_rule r ∧ found_in word r ≠ [].

Global Instance has_match_dec word r : Decision (has_match word r).
Proof. unfold has_match. apply _. Defined.

(** The last rule of the snapshot that has a match. *)
Definition last_matching (word : string) (rules : list AutoModRule) : option AutoModRule :=
  last (filter (has_match word) rules).

(** The entry of [matches] a keyword rule gives rise to on its own. *)
Definition matches_entry (word : string) (r : AutoModRule) : string * list string :=
  (name r, describe word <$> found_in word r).

(** The suggestion made for a rule. *)
Definition choice_of (r : AutoModRule) : Choice := mkChoice (name r) (pretty (id r)).

(** A keyword rule whose name contains the partial input. *)
Definition suggested (partial : string) (r : AutoModRule) : Prop :=
  is_keyword_rule r ∧ substring_of partial (name r).

Global Instance suggested_dec partial r : Decision (suggested partial r).
Proof. unfold suggested. apply _. Defined.

(** The sequence an edit with the given [regex] flag works on. *)
Definition relevant (regex : bool) (r : AutoModRule) : list string :=
  if regex then regex_patterns (trigger r) else keyword_filter (trigger r).

Definition set_relevant (regex : bool) (l : list string) (r : AutoModRule) : AutoModRule :=
  if regex then set_regex_patterns l r else set_keyword_filter l r.

(** The event resolves to a rule called "Scams" and to a member. *)
Definition designated (action : AutoModAction) : Prop :=
  ∃ r m, fetch_rule_outcome action = FetchReturns (Some r)
       ∧ member action = Some m
       ∧ name r = "Scams".

(** The tag logged for a member. *)
Definition kick_tag (m : Member) : string := "wk:" +:+ pretty (member_id m).

(** The events a handler adds to the trace are [edits] followed by one
    ephemeral message without a file, where [edits] is empty or is the
    submission of the whole trigger of the rule object as the handler
    leaves it; and the handler does not end by an exception. *)
Definition responds_once (m : M unit) (w : World) : Prop :=
  ∃ edits content,
    trace (exec m w) = trace w ++ edits ++ [SendMessage content true None]
    ∧ (edits = [] ∨ edits = [RuleEdit (id (rule w)) (trigger (rule (exec m w)))])
    ∧ (outcome m w = Next () ∨ outcome m w = Returned).

(** Neither sequence of the rule holds an entry twice. *)
Definition no_duplicates (r : AutoModRule) : Prop :=
  NoDup (keyword_filter (trigger r)) ∧ NoDup (regex_patterns (trigger r)).

(** [w'] differs from [w] at most in the trace and in the sequence of the
    rule object that the [regex] flag selects. *)
Definition same_but_relevant (regex : bool) (w w' : World) : Prop :=
  id (rule w') = id (rule w)
  ∧ name (rule w') = name (rule w)
  ∧ type (trigger (rule w')) = type (trigger (rule w))
  ∧ relevant (negb regex) (rule w') = relevant (negb regex) (rule w)
  ∧ actions w' = actions w.

(** ** Sample data *)

(** Two answers Discord can give to every request. *)
Definition accept_all : Z → AutoModTrigger → option string := λ _ _, None.
Definition reject_all (e : string) : Z → AutoModTrigger → option string := λ _ _, Some e.
Definition kick_ok : Z → string → option string := λ _ _, None.
Definition kick_fails (e : string) : Z → string → option string := λ _ _, Some e.

(** Sample rules. *)
Definition R1 : AutoModRule := mkRule 1 "R1" (mkTrigger keyword ["free"; "money"] ["fr+ee"]).
Definition R2 : AutoModRule := mkRule 2 "R2" (mkTrigger spam [] []).
Definition R3 : AutoModRule := mkRule 3 "R3" (mkTrigger keyword ["b"; "a"; "c"; "a"] []).

(** A store that refuses one thing only: a trigger without any literal
    keyword. *)
Definition reject_empty_filter : Z → AutoModTrigger → option string :=
  λ _ t, match keyword_filter t with
         | [] => Some "400 Bad Request"
         | _ => None
         end.

(** A rule with a single literal keyword. *)
Definition R4 : AutoModRule := mkRule 4 "R4" (mkTrigger keyword ["only"] []).

(** Two rules with matches for "i": two in the first, two in the second. *)
Definition two_matching_rules : list AutoModRule :=
  [ mkRule 1 "Scams" (mkTrigger keyword ["win"; "prize"] ["w[i1]n"]);
    mkRule 2 "Links" (mkTrigger harmful_link ["invite"] []);
    mkRule 3 "Spam" (mkTrigger keyword ["buy"; "gift"; "coin"] []) ].

(** Two rules with the same name: the first has the only match. *)
Definition twin_rules : list AutoModRule :=
  [ mkRule 1 "A" (mkTrigger keyword ["x"] []);
    mkRule 2 "A" (mkTrigger keyword [] []) ].

(** Three rules, two of which are called "B". *)
Definition shadowed_rules : list AutoModRule :=
  [ mkRule 1 "B" (mkTrigger keyword ["x"] []);
    mkRule 2 "A" (mkTrigger keyword ["ax"] []);
    mkRule 3 "B" (mkTrigger keyword ["xx"] []) ].

(** A reader of decimal numerals, [int] restricted to the texts that
    [str] produces for integers; it serves as a sample [int].  The
    character matched in [read_Z] is the minus sign. *)
Definition digit_of (c : Ascii.ascii) : option N :=
  let n := Ascii.N_of_ascii c in
  if decide (48 ≤ n ∧ n ≤ 57)%N then Some (n - 48)%N else None.

Fixpoint read_digits (acc : N) (s : string) : option N :=
  match s with
  | EmptyString => Some acc
  | String c s' =>
      match digit_of c with
      | Some d => read_digits (10 * acc + d) s'
      | None => None
      end
  end.

Definition read_N (s : string) : option N :=
  match s with
  | EmptyString => None
  | _ => read_digits 0 s
  end.

Definition read_Z (s : string) : option Z :=
  match read_N s with
  | Some n => Some (Z.of_N n)
  | None =>
      match s with
      | String (Ascii.Ascii true false true true false true false false) s' => (λ n, (- Z.of_N n)%Z) <$> read_N s'
      | _ => None
      end
  end.

(** A guild that holds the given rules and looks them up by id. *)
Definition guild_lookup (rules : list AutoModRule) (rule_id : Z) : RuleLookup :=
  match list_find (λ r, id r = rule_id) rules with
  | Some (_, r) => LookupReturns r
  | None => LookupNotFound
  end.

(** ** Proof support *)

(** Unfolds a command down to the state function it denotes. *)
Ltac run_cmd :=
  unfold exec, outcome, add_keyword, delete_keyword, on_automod_action,
    fetch_rule, member_kick, rule_edit,
    regex_patterns_append, keyword_filter_append,
    regex_patterns_remove, keyword_filter_remove,
    actions_append, send_message, emit, get_rule, put_rule,
    try_except, bind, ret, return_, raise;
  cbn [rule actions trace fst snd].

(** * Lemmas *)

(** ** The loops of [search_keyword] *)

Lemma dict_set_fresh {V} (k : string) (v : V) (d : dict V) :
  k ∉ d.*1 → dict_set k v d = d ++ [(k, v)].
Proof.
  induction d as [|[k' v'] d IH]; intros Hk; simpl; [done|].
  rewrite fmap_cons, not_elem_of_cons in Hk. destruct Hk as [Hne Hk].
  case_decide; [by subst|]. by rewrite IH.
Qed.

Lemma dict_append_last {A} (k : string) (x : A) (d : dict (list A)) (acc : list A) :
  k ∉ d.*1 → dict_append k x (d ++ [(k, acc)]) = d ++ [(k, acc ++ [x])].
Proof.
  induction d as [|[k' v'] d IH]; intros Hk; simpl.
  - by case_decide.
  - rewrite fmap_cons, not_elem_of_cons in Hk. destruct Hk as [Hne Hk].
    case_decide; [by subst|]. by rewrite IH.
Qed.

Lemma search_keyword_step_count (word n : string) (kws : list string) d c :
  (fold_left (search_keyword_step word n) kws (d, c)).2
  = c + length (filter (substring_of word) kws).
Proof.
  revert d c. induction kws as [|k kws IH]; intros d c; simpl; [lia|].
  rewrite filter_cons, str_in_decide.
  destruct (decide (substring_of word k)) as [Hk|Hk].
  - rewrite bool_decide_eq_true_2 by done. rewrite IH. simpl. lia.
  - rewrite bool_decide_eq_false_2 by done. apply IH.
Qed.

Lemma search_keyword_step_matches (word n : string) (kws : list string) d acc c :
  n ∉ d.*1 →
  (fold_left (search_keyword_step word n) kws (d ++ [(n, acc)], c)).1
  = d ++ [(n, acc ++ (describe word <$> filter (substring_of word) kws))].
Proof.
  intros Hn. revert acc c. induction kws as [|k kws IH]; intros acc c; simpl.
  - by rewrite app_nil_r.
  - rewrite filter_cons, str_in_decide.
    destruct (decide (substring_of word k)) as [Hk|Hk].
    + rewrite bool_decide_eq_true_2 by done.
      rewrite dict_append_last by done. rewrite IH.
      by rewrite fmap_cons, <-app_assoc.
    + rewrite bool_decide_eq_false_2 by done. apply IH.
Qed.

Lemma match_total_cons (word : string) (r : AutoModRule) (rules : list AutoModRule) :
  match_total word (r :: rules) = match_count word r + match_total word rules.
Proof. reflexivity. Qed.

(** The count never looks at [matches]: it is the sum of the
    per-rule counts, whatever the names of the rules. *)
Lemma search_rule_step_count (word : string) (rules : list AutoModRule) d c :
  (fold_left (search_rule_step word) rules (d, c)).2 = c + match_total word rules.
Proof.
  revert d c. induction rules as [|r rules IH]; intros d c; simpl.
  - unfold match_total. simpl. lia.
  - rewrite match_total_cons. unfold match_count, is_keyword_rule.
    destruct (decide (type (trigger r) ≠ keyword)) as [Hty|Hty].
    + rewrite IH. rewrite decide_False by done. lia.
    + apply dec_stable in Hty. rewrite decide_True by done.
      destruct (fold_left _ (keyword_filter _) _) as [d' c'] eqn:E.
      rewrite IH. apply (f_equal snd) in E. simpl in E.
      rewrite search_keyword_step_count in E. subst c'.
      unfold found_in. lia.
Qed.

(** With distinct names, [matches] has one entry per keyword rule, in
    snapshot order. *)
Lemma search_rule_step_matches (word : string) (rules : list AutoModRule) d c :
  NoDup (name <$> filter is_keyword_rule rules) →
  (∀ n, n ∈ name <$> filter is_keyword_rule rules → n ∉ d.*1) →
  (fold_left (search_rule_step word) rules (d, c)).1
  = d ++ (matches_entry word <$> filter is_keyword_rule rules).
Proof.
  revert d c. induction rules as [|r rules IH]; intros d c Hnd Hfresh; simpl.
  - by rewrite app_nil_r.
  - destruct (decide (is_keyword_rule r)) as [Hty|Hty].
    + rewrite filter_cons_True in Hnd, Hfresh |- * by done.
      rewrite decide_False by (unfold is_keyword_rule in Hty; congruence).
      rewrite fmap_cons in Hnd, Hfresh. apply NoDup_cons in Hnd as [Hr Hnd].
      assert (name r ∉ d.*1) as Hd by (apply Hfresh; left).
      rewrite dict_set_fresh by done.
      destruct (fold_left _ (keyword_filter _) _) as [d' c'] eqn:E.
      apply (f_equal fst) in E. simpl in E.
      rewrite search_keyword_step_matches in E by done. subst d'.
      rewrite IH; [|done|].
      * rewrite fmap_cons, <-app_assoc. done.
      * intros n Hn. rewrite fmap_app, not_elem_of_app. split.
        -- apply Hfresh. by right.
        -- simpl. rewrite not_elem_of_cons. split; [|apply not_elem_of_nil].
           intros ->. done.
    + rewrite filter_cons_False in Hnd, Hfresh |- * by done.
      rewrite decide_True by done. by apply IH.
Qed.

(** The second loop keeps the text of the last entry that has matches. *)
Lemma search_text_step_last (d : dict (list string)) (text : string) :
  fold_left search_text_step d text
  = match last (filter (λ e, e.2 ≠ []) d) with
    | Some e => rule_text e.1 e.2
    | None => text
    end.
Proof.
  revert text. induction d as [|[n f] d IH]; intros text; [done|].
  rewrite filter_cons. cbn [fold_left]. rewrite IH.
  destruct f as [|x f].
  - by rewrite decide_False by (by intros []).
  - rewrite decide_True by done.
    rewrite last_cons. by destruct (last _).
Qed.

Lemma search_rules_count (word : string) (rules : list AutoModRule) :
  (search_rules word rules).2 = match_total word rules.
Proof. unfold search_rules. by rewrite search_rule_step_count. Qed.

Lemma search_rules_matches (word : string) (rules : list AutoModRule) :
  NoDup (name <$> filter is_keyword_rule rules) →
  (search_rules word rules).1 = matches_entry word <$> filter is_keyword_rule rules.
Proof.
  intros Hnd. unfold search_rules.
  rewrite search_rule_step_matches; [done|done|].
  intros n _. apply not_elem_of_nil.
Qed.

(** The regex patterns of a rule play no part in its count. *)
Lemma match_count_regex_patterns (word : string) (l : list string) (r : AutoModRule) :
  match_count word (set_regex_patterns l r) = match_count word r.
Proof. reflexivity. Qed.

Lemma match_total_regex_patterns (word : string) (patterns : AutoModRule → list string)
    (rules : list AutoModRule) :
  match_total word ((λ r, set_regex_patterns (patterns r) r) <$> rules)
  = match_total word rules.
Proof.
  induction rules as [|r rules IH]; [done|].
  rewrite fmap_cons, !match_total_cons, IH. by rewrite match_count_regex_patterns.
Qed.

Lemma filter_substring_of_nil (l : list string) : filter (substring_of "") l = l.
Proof.
  induction l as [|k l IH]; [done|].
  rewrite filter_cons_True by apply substring_of_nil. by rewrite IH.
Qed.

(** What [search_keyword] sends, in terms of the two loops' results. *)
Lemma search_keyword_run (rules : list AutoModRule) (word : string) (w : World) :
  exec (search_keyword rules word) w
  = mkWorld (rule w) (actions w)
      (trace w ++
       [if decide ((search_rules word rules).2 = 0)
        then SendMessage "No match found." false None
        else SendMessage (pretty (search_rules word rules).2 +:+ " matches found.") false
               (Some (mkFile (search_text (search_rules word rules).1) "matches.txt"))]).
Proof.
  unfold exec, search_keyword. destruct (search_rules word rules) as [d c]. simpl.
  by destruct (decide (c = 0)).
Qed.

(** With no match at all there is no last matching rule, and conversely. *)
Lemma last_matching_None (word : string) (rules : list AutoModRule) :
  last_matching word rules = None → match_total word rules = 0.
Proof.
  unfold last_matching. rewrite last_None. intros Hnil.
  induction rules as [|r rules IH]; [done|].
  rewrite filter_cons in Hnil. rewrite match_total_cons.
  destruct (decide (has_match word r)) as [Hm|Hm]; [done|].
  rewrite IH by done. unfold match_count.
  destruct (decide (is_keyword_rule r)) as [Hk|Hk]; [|done].
  destruct (found_in word r) eqn:E; [done|].
  exfalso. apply Hm. split; [done|]. by rewrite E.
Qed.

Lemma filter_matches_entry (word : string) (rules : list AutoModRule) :
  filter (λ e, e.2 ≠ []) (matches_entry word <$> filter is_keyword_rule rules)
  = matches_entry word <$> filter (has_match word) rules.
Proof.
  induction rules as [|r rules IH]; [done|].
  rewrite (filter_cons is_keyword_rule), (filter_cons (has_match word)).
  destruct (decide (is_keyword_rule r)) as [Hk|Hk].
  - rewrite fmap_cons, filter_cons, IH. simpl.
    destruct (decide (has_match word r)) as [Hm|Hm].
    + rewrite decide_True; [done|]. destruct Hm as [_ Hm].
      by destruct (found_in word r).
    + rewrite decide_False; [done|]. intros Hne. apply Hm. split; [done|].
      intros E. by rewrite E in Hne.
  - rewrite IH. rewrite decide_False; [done|]. by intros [? _].
Qed.

(** ** [rules_autocomplete] *)

Lemma autocomplete_loop (current : string) (rules : list AutoModRule) (choices : list Choice) :
  fold_left
    (λ choices rule,
       if bool_decide (type (trigger rule) = keyword) && str_in current (name rule)
       then choices ++ [mkChoice (name rule) (pretty (id rule))]
       else choices)
    rules choices
  = choices ++ (choice_of <$> filter (suggested current) rules).
Proof.
  revert choices. induction rules as [|r rules IH]; intros choices; simpl.
  - by rewrite app_nil_r.
  - rewrite IH, filter_cons, str_in_decide. unfold suggested at 2, is_keyword_rule.
    destruct (decide (type (trigger r) = keyword ∧ substring_of current (name r)))
      as [[Hk Hs]|Hno].
    + rewrite !bool_decide_eq_true_2 by done. simpl.
      by rewrite <-app_assoc.
    + assert (bool_decide (type (trigger r) = keyword)
              && bool_decide (substring_of current (name r)) = false) as ->; [|done].
      apply andb_false_iff.
      rewrite !bool_decide_eq_false. apply not_and_l. done.
Qed.

Lemma autocomplete_comprehension (rules : list AutoModRule) :
  omap
    (λ rule,
       if decide (type (trigger rule) = keyword)
       then Some (mkChoice (name rule) (pretty (id rule)))
       else None)
    rules
  = choice_of <$> filter is_keyword_rule rules.
Proof.
  induction rules as [|r rules IH]; [done|].
  rewrite filter_cons. csimpl. rewrite IH. unfold is_keyword_rule.
  by destruct (decide (type (trigger r) = keyword)).
Qed.

Lemma filter_suggested_nil (rules : list AutoModRule) :
  filter (suggested "") rules = filter is_keyword_rule rules.
Proof.
  apply list_filter_iff. intros r. unfold suggested. split; [by intros [? _]|].
  intros Hk. split; [done|]. apply substring_of_nil.
Qed.

Lemma rules_autocomplete_filter (rules : list AutoModRule) (p : string) :
  rules_autocomplete rules p = choice_of <$> filter (suggested p) rules.
Proof.
  unfold rules_autocomplete. destruct (decide (p ≠ "")) as [Hp|Hp].
  - by rewrite autocomplete_loop.
  - apply dec_stable in Hp. subst p.
    by rewrite autocomplete_comprehension, filter_suggested_nil.
Qed.

(** ** [list.remove] *)

Lemma list_remove_first_split (x : string) (pre post : list string) :
  x ∉ pre → list_remove_first x (pre ++ x :: post) = Some (pre ++ post).
Proof.
  induction pre as [|y pre IH]; intros Hx; simpl.
  - by rewrite decide_True.
  - rewrite not_elem_of_cons in Hx. destruct Hx as [Hne Hx].
    rewrite decide_False by done. by rewrite IH.
Qed.

(** ** The relevant sequence *)

Lemma set_relevant_same (regex : bool) (r : AutoModRule) :
  set_relevant regex (relevant regex r) r = r.
Proof. by destruct r as [i n [t kf rp]], regex. Qed.

Lemma set_relevant_twice (regex : bool) (l l' : list string) (r : AutoModRule) :
  set_relevant regex l (set_relevant regex l' r) = set_relevant regex l r.
Proof. by destruct regex. Qed.

Lemma relevant_set_relevant (regex : bool) (l : list string) (r : AutoModRule) :
  relevant regex (set_relevant regex l r) = l.
Proof. by destruct regex. Qed.

(** * Scenarios *)

(** Adding "prize" to a filter and then deleting "money" from it: the
    triggers submitted, and the messages sent. *)
Example scenario_add_then_delete :
  trace (exec (delete_keyword accept_all "money" false)
           (exec (add_keyword accept_all "prize" false) (start R1 [])))
  = [RuleEdit 1 (mkTrigger keyword ["free"; "money"; "prize"] ["fr+ee"]);
     SendMessage "Added keyword prize to R1 Automod rule succesfully." true None;
     RuleEdit 1 (mkTrigger keyword ["free"; "prize"] ["fr+ee"]);
     SendMessage "Deleted keyword money from R1 automod rule succesfully." true None].
Proof. by vm_compute. Qed.

(** Searching "i" in two rules, of which the first has both matches. *)
Example scenario_search :
  trace (exec (search_keyword
                 [ mkRule 1 "Scams" (mkTrigger keyword ["win"; "prize"] []);
                   mkRule 2 "Spam" (mkTrigger keyword ["buy"] []) ] "i")
           (start R1 []))
  = [SendMessage "2 matches found." false
       (Some (mkFile ("Rule Scams:" +:+ LF +:+ "  win contains i  " +:+ LF +:+ "prize contains i")
                "matches.txt"))].
Proof. by vm_compute. Qed.

(** An action of the rule "Scams" kicks member 42 once; an action of the
    rule "Spam" does nothing. *)
Example scenario_reactor :
  on_automod_action kick_ok
    (mkAction (FetchReturns (Some (mkRule 7 "Scams" (mkTrigger keyword [] []))))
       (Some (mkMember 42)))
    (start R1 [])
  = (Next (), mkWorld R1 ["wk:42"] [ActionsAppend "wk:42"; MemberKick 42 "Suspicious behavior"])
  ∧ on_automod_action kick_ok
      (mkAction (FetchReturns (Some (mkRule 8 "Spam" (mkTrigger keyword [] []))))
         (Some (mkMember 42)))
      (start R1 [])
    = (Next (), start R1 []).
Proof. split; by vm_compute. Qed.

(** Suggestions for the partial input "S" among a keyword rule and a spam
    rule. *)
Example scenario_autocomplete :
  rules_autocomplete
    [ mkRule 1 "Scams" (mkTrigger keyword ["win"] []);
      mkRule 2 "Spam" (mkTrigger spam [] []);
      mkRule 3 "links" (mkTrigger keyword [] []) ] "S"
  = [mkChoice "Scams" "1"].
Proof. by vm_compute. Qed.

(** * Properties of the specification *)

(** ** Search *)

(** C4.  The count [search_keyword] reports is the number of literal
    keywords that contain the query as a substring, summed over the
    keyword rules of the snapshot; replacing the regex patterns of the
    rules by anything leaves it unchanged; with the empty query it counts
    every literal keyword of every keyword rule.  The message sent
    carries that count, or says that nothing matched when it is zero. *)
Theorem search_keyword_total_count (rules : list AutoModRule) (q : string) :
  (search_rules q rules).2 = match_total q rules
  ∧ (∀ patterns : AutoModRule → list string,
       (search_rules q ((λ r, set_regex_patterns (patterns r) r) <$> rules)).2
       = (search_rules q rules).2)
  ∧ (search_rules "" rules).2
    = sum_list ((λ r, if decide (is_keyword_rule r)
                      then length (keyword_filter (trigger r)) else 0) <$> rules)
  ∧ (∀ w, ∃ file,
       trace (exec (search_keyword rules q) w)
       = trace w ++
         [if decide (match_total q rules = 0)
          then SendMessage "No match found." false None
          else SendMessage (pretty (match_total q rules) +:+ " matches found.") false
                 (Some file)]).
Proof.
  split; [apply search_rules_count|]. split; [|split].
  - intros patterns. rewrite !search_rules_count. apply match_total_regex_patterns.
  - rewrite search_rules_count. unfold match_total. f_equal.
    apply list_fmap_ext. intros _ r _. unfold match_count, found_in.
    by rewrite filter_substring_of_nil.
  - intros w. rewrite search_keyword_run, search_rules_count. cbn [trace].
    eexists. reflexivity.
Qed.

(** C2, as stated, fails when two keyword rules share a name: the second
    rule "A" resets the entry of the first, so one match is counted and
    the file sent is empty, although the last rule with a match is the
    first rule "A". *)
Lemma search_keyword_twin_rules_empty_text :
  match_total "x" twin_rules = 1
  ∧ last_matching "x" twin_rules = Some (mkRule 1 "A" (mkTrigger keyword ["x"] []))
  ∧ trace (exec (search_keyword twin_rules "x") (start (mkRule 0 "" (mkTrigger keyword [] [])) []))
    = [SendMessage "1 matches found." false (Some (mkFile "" "matches.txt"))]
  ∧ ¬ (∃ r, last_matching "x" twin_rules = Some r
          ∧ trace (exec (search_keyword twin_rules "x")
                     (start (mkRule 0 "" (mkTrigger keyword [] [])) []))
            = [SendMessage (pretty (match_total "x" twin_rules) +:+ " matches found.") false
                 (Some (mkFile (rule_text (name r) (describe "x" <$> found_in "x" r))
                          "matches.txt"))]).
Proof.
  split; [by vm_compute|]. split; [by vm_compute|]. split; [by vm_compute|].
  intros [r [_ Htrace]]. vm_compute in Htrace.
  injection Htrace as Htext. discriminate Htext.
Qed.

(** [str.join] as the library has it. *)
Lemma join_concat (sep : string) (parts : list string) :
  join sep parts = String.concat sep parts.
Proof.
  induction parts as [|p parts IH]; [done|].
  destruct parts as [|p' parts]; [done|].
  change (p +:+ sep +:+ join sep (p' :: parts)
          = p +:+ sep +:+ String.concat sep (p' :: parts)).
  by rewrite IH.
Qed.

(** The block of a rule, written out: the header line, then the lines of
    the matches, the first indented by two spaces and the others
    following two spaces and a line feed. *)
Lemma rule_text_written_out (word rule_name : string) (kws : list string) :
  rule_text rule_name (describe word <$> kws)
  = "Rule " +:+ rule_name +:+ ":" +:+ String (Ascii.ascii_of_nat 10) "  "
    +:+ String.concat ("  " +:+ String (Ascii.ascii_of_nat 10) "")
          ((λ kw, kw +:+ " contains " +:+ word) <$> kws).
Proof.
  unfold rule_text. rewrite join_concat. reflexivity.
Qed.

(** C2, amended.  When the keyword rules of the snapshot have pairwise
    distinct names and there is at least one match, the file sent holds
    the block of exactly one rule, the last rule of the snapshot that has
    a match: the line "Rule <name>:" and then, for each literal keyword
    of that rule that contains the query, in keyword order, the line
    "<keyword> contains <query>".  Nothing of an earlier rule is in the
    text, whatever it matched; the message still carries the count summed
    over all rules. *)
Theorem search_keyword_text_of_last_match (rules : list AutoModRule) (word : string) (w : World) :
  NoDup (name <$> filter is_keyword_rule rules) →
  match_total word rules ≠ 0 →
  ∃ r, last_matching word rules = Some r
     ∧ exec (search_keyword rules word) w
       = mkWorld (rule w) (actions w)
           (trace w ++
            [SendMessage (pretty (match_total word rules) +:+ " matches found.") false
               (Some (mkFile
                        ("Rule " +:+ name r +:+ ":" +:+ String (Ascii.ascii_of_nat 10) "  "
                         +:+ String.concat ("  " +:+ String (Ascii.ascii_of_nat 10) "")
                               ((λ kw, kw +:+ " contains " +:+ word) <$> found_in word r))
                        "matches.txt"))]).
Proof.
  intros Hnd Htotal.
  destruct (last_matching word rules) as [r|] eqn:Hlast;
    [|by apply last_matching_None in Hlast].
  exists r. split; [done|].
  rewrite search_keyword_run, search_rules_count, search_rules_matches by done.
  rewrite decide_False by done.
  unfold search_text. rewrite search_text_step_last, filter_matches_entry, fmap_last.
  unfold last_matching in Hlast. rewrite Hlast. cbn [fmap option_fmap option_map matches_entry fst snd].
  by rewrite rule_text_written_out.
Qed.

(** In [two_matching_rules] the query "i" has four matches, two in
    "Scams" and two in "Spam" (and "invite" in a rule of another type,
    which is not searched); the message says 4 and the file holds the two
    lines of "Spam" only. *)
Lemma search_keyword_text_of_last_match_witness :
  (∃ r, last_matching "i" two_matching_rules = Some r
      ∧ exec (search_keyword two_matching_rules "i") (start R2 [])
        = mkWorld (rule (start R2 [])) (actions (start R2 []))
            (trace (start R2 []) ++
             [SendMessage (pretty (match_total "i" two_matching_rules) +:+ " matches found.")
                false
                (Some (mkFile
                         ("Rule " +:+ name r +:+ ":" +:+ String (Ascii.ascii_of_nat 10) "  "
                          +:+ String.concat ("  " +:+ String (Ascii.ascii_of_nat 10) "")
                                ((λ kw, kw +:+ " contains " +:+ "i") <$> found_in "i" r))
                         "matches.txt"))]))
  ∧ found_in "i" (mkRule 1 "Scams" (mkTrigger keyword ["win"; "prize"] ["w[i1]n"]))
    = ["win"; "prize"]
  ∧ last_matching "i" two_matching_rules
    = Some (mkRule 3 "Spam" (mkTrigger keyword ["buy"; "gift"; "coin"] []))
  ∧ exec (search_keyword two_matching_rules "i") (start R2 [])
    = mkWorld R2 []
        [SendMessage "4 matches found." false
           (Some (mkFile
                    ("Rule Spam:" +:+ String (Ascii.ascii_of_nat 10) "  gift contains i  "
                     +:+ String (Ascii.ascii_of_nat 10) "coin contains i")
                    "matches.txt"))].
Proof.
  split.
  - apply (search_keyword_text_of_last_match two_matching_rules "i" (start R2 [])).
    + apply (bool_decide_unpack _). by vm_compute.
    + by vm_compute.
  - split; [by vm_compute|]. split; by vm_compute.
Defined.

(** ** Autocomplete *)

(** C8.  Every suggestion is made for a keyword rule of the snapshot
    whose name contains the partial input; with the empty input the
    suggestions are those of all keyword rules, as many as there are; in
    both cases they come in snapshot order (the suggestions of a filtered
    snapshot). *)
Theorem rules_autocomplete_sound (rules : list AutoModRule) (p : string) :
  (∀ c, c ∈ rules_autocomplete rules p →
        ∃ r, r ∈ rules ∧ c = choice_of r ∧ is_keyword_rule r ∧ substring_of p (name r))
  ∧ rules_autocomplete rules "" = choice_of <$> filter is_keyword_rule rules
  ∧ length (rules_autocomplete rules "") = length (filter is_keyword_rule rules)
  ∧ rules_autocomplete rules p = choice_of <$> filter (suggested p) rules.
Proof.
  split; [|split; [|split]].
  - intros c. rewrite rules_autocomplete_filter, list_elem_of_fmap.
    intros [r [-> Hr]]. apply list_elem_of_filter in Hr as [[Hk Hs] Hr].
    by exists r.
  - by rewrite rules_autocomplete_filter, filter_suggested_nil.
  - by rewrite rules_autocomplete_filter, filter_suggested_nil, length_fmap.
  - apply rules_autocomplete_filter.
Qed.

(** ** The keyword editor *)

Section Editor.

Variable http_edit : Z → AutoModTrigger → option string.

Lemma add_keyword_wrong_type (kw : string) (regex : bool) (w : World) :
  ¬ is_keyword_rule (rule w) →
  add_keyword http_edit kw regex w
  = (Returned,
     mkWorld (rule w) (actions w)
       (trace w ++ [SendMessage "This automod rule doesn't have a keyword filter." true None])).
Proof.
  unfold is_keyword_rule. intros Hty. run_cmd. by rewrite decide_True.
Qed.

Lemma delete_keyword_wrong_type (kw : string) (regex : bool) (w : World) :
  ¬ is_keyword_rule (rule w) →
  delete_keyword http_edit kw regex w
  = (Returned,
     mkWorld (rule w) (actions w)
       (trace w ++ [SendMessage "This AutoMod rule doesn't have a keyword filter." true None])).
Proof.
  unfold is_keyword_rule. intros Hty. run_cmd. by rewrite decide_True.
Qed.

Lemma add_keyword_present (kw : string) (regex : bool) (w : World) :
  is_keyword_rule (rule w) →
  kw ∈ relevant regex (rule w) →
  add_keyword http_edit kw regex w
  = (Returned,
     mkWorld (rule w) (actions w)
       (trace w ++
        [SendMessage
           (if regex then "This regex expression is already in the filter."
            else "This keyword is already in the filter.") true None])).
Proof.
  unfold is_keyword_rule, relevant. intros Hty Hin. run_cmd.
  rewrite decide_False by (by intros ?).
  destruct regex; by rewrite decide_True.
Qed.

Lemma delete_keyword_absent (kw : string) (regex : bool) (w : World) :
  is_keyword_rule (rule w) →
  kw ∉ relevant regex (rule w) →
  delete_keyword http_edit kw regex w
  = (Returned,
     mkWorld (rule w) (actions w)
       (trace w ++
        [SendMessage
           (if regex then "This regex expression is not in the filter."
            else "This keyword is not in the filter.") true None])).
Proof.
  unfold is_keyword_rule, relevant. intros Hty Hin. run_cmd.
  rewrite decide_False by (by intros ?).
  destruct regex; by rewrite decide_True.
Qed.

(** An entry that is not there yet is appended, the whole trigger is
    submitted, and the reply decides between the two messages. *)
Lemma add_keyword_fresh (kw : string) (regex : bool) (w : World) :
  is_keyword_rule (rule w) →
  kw ∉ relevant regex (rule w) →
  add_keyword http_edit kw regex w
  = let r' := set_relevant regex (relevant regex (rule w) ++ [kw]) (rule w) in
    match http_edit (id (rule w)) (trigger r') with
    | None =>
        (Next (),
         mkWorld r' (actions w)
           (trace w ++
            [RuleEdit (id (rule w)) (trigger r');
             SendMessage ("Added keyword " +:+ kw +:+ " to " +:+ name (rule w)
                          +:+ " Automod rule succesfully.") true None]))
    | Some e =>
        (Returned,
         mkWorld r' (actions w)
           (trace w ++
            [RuleEdit (id (rule w)) (trigger r');
             SendMessage ("Failed to add keyword: " +:+ e +:+ ".") true None]))
    end.
Proof.
  unfold is_keyword_rule, relevant, set_relevant. intros Hty Hin. run_cmd.
  rewrite decide_False by (by intros ?).
  destruct regex; rewrite decide_False by done; cbn [rule actions trace id name trigger
    set_regex_patterns set_keyword_filter];
    destruct (http_edit _ _); cbn [rule actions trace name set_regex_patterns set_keyword_filter];
    by rewrite <-app_assoc.
Qed.

(** An entry that is there is taken out at its first occurrence, the
    whole trigger is submitted, and the reply decides between the two
    messages. *)
Lemma delete_keyword_found (kw : string) (regex : bool) (w : World) (pre post : list string) :
  is_keyword_rule (rule w) →
  relevant regex (rule w) = pre ++ kw :: post →
  kw ∉ pre →
  delete_keyword http_edit kw regex w
  = let r' := set_relevant regex (pre ++ post) (rule w) in
    match http_edit (id (rule w)) (trigger r') with
    | None =>
        (Next (),
         mkWorld r' (actions w)
           (trace w ++
            [RuleEdit (id (rule w)) (trigger r');
             SendMessage ("Deleted keyword " +:+ kw +:+ " from " +:+ name (rule w)
                          +:+ " automod rule succesfully.") true None]))
    | Some e =>
        (Returned,
         mkWorld r' (actions w)
           (trace w ++
            [RuleEdit (id (rule w)) (trigger r');
             SendMessage ("Failed to delete keyword: " +:+ e +:+ ".") true None]))
    end.
Proof.
  unfold is_keyword_rule, relevant, set_relevant. intros Hty Hseq Hpre. run_cmd.
  rewrite decide_False by (by intros ?).
  assert (kw ∈ pre ++ kw :: post) as Hin by (apply elem_of_app; right; left).
  destruct regex; rewrite decide_False by (rewrite Hseq; by intros ?);
    cbn [rule actions trace fst snd];
    rewrite Hseq, list_remove_first_split by done;
    cbn [rule actions trace id name trigger set_regex_patterns set_keyword_filter];
    destruct (http_edit _ _); cbn [rule actions trace name set_regex_patterns set_keyword_filter];
    by rewrite <-app_assoc.
Qed.

End Editor.

(** C5.  On a rule whose trigger is not of the keyword type, both
    commands end after one message saying so, whatever the entry and the
    regex flag: the trace gains that message only (no rule edit is
    submitted) and the rule object is as it was. *)
Theorem wrong_trigger_type_guard (http_edit : Z → AutoModTrigger → option string)
    (kw : string) (regex : bool) (w : World) :
  type (trigger (rule w)) ≠ keyword →
  add_keyword http_edit kw regex w
  = (Returned,
     mkWorld (rule w) (actions w)
       (trace w ++ [SendMessage "This automod rule doesn't have a keyword filter." true None]))
  ∧ delete_keyword http_edit kw regex w
    = (Returned,
       mkWorld (rule w) (actions w)
         (trace w ++ [SendMessage "This AutoMod rule doesn't have a keyword filter." true None])).
Proof.
  intros Hty. split.
  - by apply add_keyword_wrong_type.
  - by apply delete_keyword_wrong_type.
Qed.

Lemma wrong_trigger_type_guard_witness :
  add_keyword accept_all "x" true (start R2 [])
  = (Returned,
     mkWorld R2 []
       ([] ++ [SendMessage "This automod rule doesn't have a keyword filter." true None]))
  ∧ delete_keyword accept_all "x" true (start R2 [])
    = (Returned,
       mkWorld R2 []
         ([] ++ [SendMessage "This AutoMod rule doesn't have a keyword filter." true None])).
Proof.
  apply (wrong_trigger_type_guard accept_all "x" true (start R2 [])).
  discriminate.
Defined.

(** C6.  On a keyword rule, adding an entry that the relevant sequence
    already holds ends after the "already in the filter" message, and
    deleting an entry that the relevant sequence does not hold ends after
    the "not in the filter" message; in both cases nothing is submitted
    and the rule object, with its two sequences, is as it was. *)
Theorem duplicate_and_absent_rejected (http_edit : Z → AutoModTrigger → option string)
    (kw : string) (regex : bool) (wa wd : World) :
  type (trigger (rule wa)) = keyword →
  kw ∈ relevant regex (rule wa) →
  type (trigger (rule wd)) = keyword →
  kw ∉ relevant regex (rule wd) →
  add_keyword http_edit kw regex wa
  = (Returned,
     mkWorld (rule wa) (actions wa)
       (trace wa ++
        [SendMessage
           (if regex then "This regex expression is already in the filter."
            else "This keyword is already in the filter.") true None]))
  ∧ delete_keyword http_edit kw regex wd
    = (Returned,
       mkWorld (rule wd) (actions wd)
         (trace wd ++
          [SendMessage
             (if regex then "This regex expression is not in the filter."
              else "This keyword is not in the filter.") true None])).
Proof.
  intros Hta Hin Htd Hout. split.
  - by apply add_keyword_present.
  - by apply delete_keyword_absent.
Qed.

Lemma duplicate_and_absent_rejected_witness :
  add_keyword accept_all "fr+ee" true (start R1 [])
  = (Returned,
     mkWorld R1 []
       ([] ++ [SendMessage "This regex expression is already in the filter." true None]))
  ∧ delete_keyword accept_all "fr+ee" true (start R3 [])
    = (Returned,
       mkWorld R3 []
         ([] ++ [SendMessage "This regex expression is not in the filter." true None])).
Proof.
  apply (duplicate_and_absent_rejected accept_all "fr+ee" true (start R1 []) (start R3 [])).
  - reflexivity.
  - apply (bool_decide_unpack _). by vm_compute.
  - reflexivity.
  - apply (bool_decide_unpack _). by vm_compute.
Defined.

(** C1, as stated, fails: after a rejected edit the rule object still
    holds the appended entry. *)
Lemma add_keyword_rejected_keeps_entry :
  let w := start R1 [] in
  let w' := exec (add_keyword (reject_all "400 Bad Request") "prize" false) w in
  is_keyword_rule R1
  ∧ ("prize" ∉ keyword_filter (trigger R1))
  ∧ trace w'
    = [RuleEdit 1 (mkTrigger keyword ["free"; "money"; "prize"] ["fr+ee"]);
       SendMessage "Failed to add keyword: 400 Bad Request." true None]
  ∧ keyword_filter (trigger (rule w')) = ["free"; "money"; "prize"]
  ∧ keyword_filter (trigger (rule w')) ≠ keyword_filter (trigger (rule w)).
Proof.
  split; [done|]. split; [apply (bool_decide_unpack _); by vm_compute|].
  split; [by vm_compute|]. split; [by vm_compute|].
  vm_compute. discriminate.
Qed.

(** C1, amended.  When Discord rejects the edit, [add_keyword] (for an
    entry not yet there) and [delete_keyword] (for an entry that is
    there) end after the failure message that carries Discord's text,
    having submitted the edited trigger once and sent no confirmation;
    the rule object is not rolled back: it holds the sequence that was
    submitted, with the entry appended, respectively with its first
    occurrence taken out.  Each of the two statements stands on its own,
    for every store, entry, flag and rule. *)
Theorem rejected_edit_reported :
  (∀ (http_edit : Z → AutoModTrigger → option string)
     (kw : string) (regex : bool) (w : World) (e : string),
     is_keyword_rule (rule w) →
     kw ∉ relevant regex (rule w) →
     http_edit (id (rule w))
       (trigger (set_relevant regex (relevant regex (rule w) ++ [kw]) (rule w))) = Some e →
     add_keyword http_edit kw regex w
     = (Returned,
        mkWorld (set_relevant regex (relevant regex (rule w) ++ [kw]) (rule w)) (actions w)
          (trace w ++
           [RuleEdit (id (rule w))
              (trigger (set_relevant regex (relevant regex (rule w) ++ [kw]) (rule w)));
            SendMessage ("Failed to add keyword: " +:+ e +:+ ".") true None])))
  ∧ (∀ (http_edit : Z → AutoModTrigger → option string)
       (kw : string) (regex : bool) (w : World) (pre post : list string) (e : string),
       is_keyword_rule (rule w) →
       relevant regex (rule w) = pre ++ kw :: post →
       kw ∉ pre →
       http_edit (id (rule w)) (trigger (set_relevant regex (pre ++ post) (rule w))) = Some e →
       delete_keyword http_edit kw regex w
       = (Returned,
          mkWorld (set_relevant regex (pre ++ post) (rule w)) (actions w)
            (trace w ++
             [RuleEdit (id (rule w)) (trigger (set_relevant regex (pre ++ post) (rule w)));
              SendMessage ("Failed to delete keyword: " +:+ e +:+ ".") true None]))).
Proof.
  split.
  - intros http_edit kw regex w e Hk Hfresh He.
    rewrite add_keyword_fresh by done. cbn zeta. by rewrite He.
  - intros http_edit kw regex w pre post e Hk Hseq Hpre He.
    rewrite (delete_keyword_found _ _ _ _ pre post) by done. cbn zeta. by rewrite He.
Qed.

(** A store that rejects everything refuses the added entry; a store
    that refuses only an emptied filter, and so no addition at all,
    refuses the deletion of the last keyword.  In both cases the rule
    object keeps the edit. *)
Lemma rejected_edit_reported_witness :
  add_keyword (reject_all "400 Bad Request") "a" false (start R1 [])
  = (Returned,
     mkWorld (set_relevant false (relevant false (rule (start R1 [])) ++ ["a"])
                (rule (start R1 [])))
       (actions (start R1 []))
       (trace (start R1 []) ++
        [RuleEdit (id (rule (start R1 [])))
           (trigger (set_relevant false (relevant false (rule (start R1 [])) ++ ["a"])
                       (rule (start R1 []))));
         SendMessage ("Failed to add keyword: " +:+ "400 Bad Request" +:+ ".") true None]))
  ∧ delete_keyword reject_empty_filter "only" false (start R4 [])
    = (Returned,
       mkWorld (set_relevant false ([] ++ []) (rule (start R4 []))) (actions (start R4 []))
         (trace (start R4 []) ++
          [RuleEdit (id (rule (start R4 [])))
             (trigger (set_relevant false ([] ++ []) (rule (start R4 []))));
           SendMessage ("Failed to delete keyword: " +:+ "400 Bad Request" +:+ ".") true None]))
  ∧ rule (exec (add_keyword (reject_all "400 Bad Request") "a" false) (start R1 []))
    = mkRule 1 "R1" (mkTrigger keyword ["free"; "money"; "a"] ["fr+ee"])
  ∧ rule (exec (delete_keyword reject_empty_filter "only" false) (start R4 []))
    = mkRule 4 "R4" (mkTrigger keyword [] []).
Proof.
  split; [|split].
  - apply (proj1 rejected_edit_reported (reject_all "400 Bad Request") "a" false
             (start R1 []) "400 Bad Request").
    + reflexivity.
    + apply (bool_decide_unpack _). by vm_compute.
    + reflexivity.
  - apply (proj2 rejected_edit_reported reject_empty_filter "only" false
             (start R4 []) [] [] "400 Bad Request").
    + reflexivity.
    + reflexivity.
    + apply not_elem_of_nil.
    + reflexivity.
  - split; by vm_compute.
Defined.

(** C7.  On a keyword rule, adding an entry that is not in the relevant
    sequence and then deleting it, both edits being accepted, leaves the
    rule object exactly as it was before the two commands: the relevant
    sequence has its original content and order (and the other sequence
    was never touched).  The second edit submits the original trigger. *)
Theorem add_then_delete_restores (http_edit : Z → AutoModTrigger → option string)
    (kw : string) (regex : bool) (w : World) :
  let added := set_relevant regex (relevant regex (rule w) ++ [kw]) (rule w) in
  let w1 := exec (add_keyword http_edit kw regex) w in
  let w2 := exec (delete_keyword http_edit kw regex) w1 in
  is_keyword_rule (rule w) →
  kw ∉ relevant regex (rule w) →
  http_edit (id (rule w)) (trigger added) = None →
  http_edit (id (rule w)) (trigger (rule w)) = None →
  outcome (add_keyword http_edit kw regex) w = Next ()
  ∧ relevant regex (rule w1) = relevant regex (rule w) ++ [kw]
  ∧ outcome (delete_keyword http_edit kw regex) w1 = Next ()
  ∧ relevant regex (rule w2) = relevant regex (rule w)
  ∧ rule w2 = rule w
  ∧ trace w2
    = trace w ++
      [RuleEdit (id (rule w)) (trigger added);
       SendMessage ("Added keyword " +:+ kw +:+ " to " +:+ name (rule w)
                    +:+ " Automod rule succesfully.") true None;
       RuleEdit (id (rule w)) (trigger (rule w));
       SendMessage ("Deleted keyword " +:+ kw +:+ " from " +:+ name (rule w)
                    +:+ " automod rule succesfully.") true None].
Proof.
  intros added w1 w2 Hk Hfresh Hadd Hdel.
  pose proof (add_keyword_fresh http_edit kw regex w Hk Hfresh) as Ha.
  cbn zeta in Ha. fold added in Ha. rewrite Hadd in Ha.
  assert (rule w1 = added) as Hr1 by (unfold w1, exec; by rewrite Ha).
  assert (id added = id (rule w)) as Hid by (unfold added; by destruct regex).
  assert (name added = name (rule w)) as Hname by (unfold added; by destruct regex).
  assert (is_keyword_rule added) as Hk1 by (unfold added; by destruct regex).
  assert (relevant regex added = relevant regex (rule w) ++ kw :: []) as Hseq
    by (unfold added; by rewrite relevant_set_relevant).
  assert (set_relevant regex (relevant regex (rule w) ++ []) added = rule w) as Hback.
  { unfold added. by rewrite app_nil_r, set_relevant_twice, set_relevant_same. }
  pose proof (delete_keyword_found http_edit kw regex w1 (relevant regex (rule w)) []) as Hd.
  rewrite Hr1 in Hd. specialize (Hd Hk1 Hseq Hfresh).
  cbn zeta in Hd. rewrite Hback, Hid, Hname, Hdel in Hd.
  split; [unfold outcome; by rewrite Ha|].
  split; [by rewrite Hr1|].
  split; [unfold outcome; by rewrite Hd|].
  unfold w2, exec. rewrite Hd. cbn [snd rule trace].
  split; [done|]. split; [done|].
  unfold w1, exec. rewrite Ha. cbn [snd trace actions].
  by rewrite <-app_assoc.
Qed.

Lemma add_then_delete_restores_witness :
  outcome (add_keyword accept_all "prize" false) (start R1 []) = Next ()
  ∧ relevant false (rule (exec (add_keyword accept_all "prize" false) (start R1 [])))
    = relevant false (rule (start R1 [])) ++ ["prize"]
  ∧ outcome (delete_keyword accept_all "prize" false)
      (exec (add_keyword accept_all "prize" false) (start R1 [])) = Next ()
  ∧ relevant false
      (rule (exec (delete_keyword accept_all "prize" false)
               (exec (add_keyword accept_all "prize" false) (start R1 []))))
    = relevant false (rule (start R1 []))
  ∧ rule (exec (delete_keyword accept_all "prize" false)
            (exec (add_keyword accept_all "prize" false) (start R1 [])))
    = rule (start R1 [])
  ∧ trace (exec (delete_keyword accept_all "prize" false)
             (exec (add_keyword accept_all "prize" false) (start R1 [])))
    = trace (start R1 []) ++
      [RuleEdit (id (rule (start R1 [])))
         (trigger (set_relevant false (relevant false (rule (start R1 [])) ++ ["prize"])
                     (rule (start R1 []))));
       SendMessage ("Added keyword " +:+ "prize" +:+ " to " +:+ name (rule (start R1 []))
                    +:+ " Automod rule succesfully.") true None;
       RuleEdit (id (rule (start R1 []))) (trigger (rule (start R1 [])));
       SendMessage ("Deleted keyword " +:+ "prize" +:+ " from " +:+ name (rule (start R1 []))
                    +:+ " automod rule succesfully.") true None].
Proof.
  apply (add_then_delete_restores accept_all "prize" false (start R1 [])).
  - reflexivity.
  - apply (bool_decide_unpack _). by vm_compute.
  - reflexivity.
  - reflexivity.
Defined.

(** C9.  When the relevant sequence holds the entry several times,
    [delete_keyword] takes out its first occurrence only: with the
    sequence split at that occurrence into [pre], the entry and [post],
    the rule object and the submitted trigger hold [pre ++ post], so that
    every other element, later copies of the entry included, stays in
    place and in order; the other sequence is unchanged.  This does not
    depend on Discord's reply. *)
Theorem delete_keyword_first_occurrence (http_edit : Z → AutoModTrigger → option string)
    (kw : string) (regex : bool) (w : World) (pre post : list string) :
  let w' := exec (delete_keyword http_edit kw regex) w in
  is_keyword_rule (rule w) →
  relevant regex (rule w) = pre ++ kw :: post →
  kw ∉ pre →
  relevant regex (rule w') = pre ++ post
  ∧ relevant (negb regex) (rule w') = relevant (negb regex) (rule w)
  ∧ rule w' = set_relevant regex (pre ++ post) (rule w)
  ∧ ∃ reply,
      trace w'
      = trace w ++
        [RuleEdit (id (rule w)) (trigger (set_relevant regex (pre ++ post) (rule w))); reply].
Proof.
  intros w' Hk Hseq Hpre.
  pose proof (delete_keyword_found http_edit kw regex w pre post Hk Hseq Hpre) as Hd.
  cbn zeta in Hd.
  assert (rule w' = set_relevant regex (pre ++ post) (rule w)) as Hr.
  { unfold w', exec. rewrite Hd. by destruct (http_edit _ _). }
  split; [by rewrite Hr, relevant_set_relevant|].
  split; [rewrite Hr; by destruct regex|].
  split; [done|].
  unfold w', exec. rewrite Hd. destruct (http_edit _ _); eexists; reflexivity.
Qed.

Lemma delete_keyword_first_occurrence_witness :
  relevant false (rule (exec (delete_keyword accept_all "a" false) (start R3 [])))
  = ["b"] ++ ["c"; "a"]
  ∧ relevant (negb false) (rule (exec (delete_keyword accept_all "a" false) (start R3 [])))
    = relevant (negb false) (rule (start R3 []))
  ∧ rule (exec (delete_keyword accept_all "a" false) (start R3 []))
    = set_relevant false (["b"] ++ ["c"; "a"]) (rule (start R3 []))
  ∧ ∃ reply,
      trace (exec (delete_keyword accept_all "a" false) (start R3 []))
      = trace (start R3 []) ++
        [RuleEdit (id (rule (start R3 [])))
           (trigger (set_relevant false (["b"] ++ ["c"; "a"]) (rule (start R3 [])))); reply].
Proof.
  apply (delete_keyword_first_occurrence accept_all "a" false (start R3 []) ["b"] ["c"; "a"]).
  - reflexivity.
  - reflexivity.
  - apply (bool_decide_unpack _). by vm_compute.
Defined.

(** ** The reactor *)

Lemma on_automod_action_designated (http_kick : Z → string → option string)
    (action : AutoModAction) (r : AutoModRule) (m : Member) (w : World) :
  fetch_rule_outcome action = FetchReturns (Some r) →
  member action = Some m →
  name r = "Scams" →
  on_automod_action http_kick action w
  = (match http_kick (member_id m) "Suspicious behavior" with
     | None => Next ()
     | Some e => Raised e
     end,
     mkWorld (rule w) (actions w ++ [kick_tag m])
       (trace w ++ [ActionsAppend (kick_tag m); MemberKick (member_id m) "Suspicious behavior"])).
Proof.
  intros Hf Hm Hn. run_cmd. rewrite Hf, Hm. rewrite decide_True by done.
  cbn [rule actions trace]. rewrite <-app_assoc.
  by destruct (http_kick _ _).
Qed.

Lemma on_automod_action_dropped (http_kick : Z → string → option string)
    (action : AutoModAction) (w : World) :
  ¬ designated action →
  exec (on_automod_action http_kick action) w = w.
Proof.
  unfold designated. intros Hno. run_cmd.
  destruct (fetch_rule_outcome action) as [[r|]|e] eqn:Hf; [|done..].
  destruct (member action) as [m|] eqn:Hm; [|done].
  destruct (decide (name r = "Scams")) as [Hn|Hn]; [|done].
  exfalso. apply Hno. by exists r, m.
Qed.

(** C3.  The events [on_automod_action] adds to the trace contain a kick
    exactly when the event resolves to a rule called "Scams" and to a
    member; then they are the log append followed by one kick of that
    member.  In every other case (the rule does not resolve, the member
    does not resolve, the rule has another name) the world is untouched:
    no kick and no log append. *)
Theorem kick_iff_designated (http_kick : Z → string → option string)
    (action : AutoModAction) (w : World) :
  ∃ new,
    trace (exec (on_automod_action http_kick action) w) = trace w ++ new
    ∧ ((∃ who reason, MemberKick who reason ∈ new) ↔ designated action)
    ∧ (designated action →
       ∃ m, member action = Some m
          ∧ new = [ActionsAppend (kick_tag m); MemberKick (member_id m) "Suspicious behavior"])
    ∧ (¬ designated action →
       new = [] ∧ exec (on_automod_action http_kick action) w = w).
Proof.
  destruct (fetch_rule_outcome action) as [[r|]|e] eqn:Hf;
    [destruct (member action) as [m|] eqn:Hm;
     [destruct (decide (name r = "Scams")) as [Hn|Hn]|]|..].
  1: {
    assert (designated action) as Hd by (by exists r, m).
    exists [ActionsAppend (kick_tag m); MemberKick (member_id m) "Suspicious behavior"].
    unfold exec. rewrite (on_automod_action_designated _ _ r m) by done.
    split; [done|]. split; [|split].
    - split; [done|]. intros _. exists (member_id m), "Suspicious behavior".
      right. left.
    - intros _. by exists m.
    - done.
  }
  all: assert (¬ designated action) as Hd
    by (intros [r' [m' [Hf' [Hm' Hn']]]]; congruence).
  all: exists []; rewrite on_automod_action_dropped by done.
  all: split; [by rewrite app_nil_r|].
  all: split; [split; [intros [who [reason Hin]]; by apply elem_of_nil in Hin|done]|].
  all: split; done.
Qed.

(** C10.  For an event that resolves to a rule called "Scams" and to a
    member, the tag "wk:<member id>" is appended to the bot's log before
    the kick is requested, and it is in the log afterwards whatever the
    kick does: when the kick raises, the exception leaves the handler and
    nothing undoes the append. *)
Theorem tag_logged_before_kick (http_kick : Z → string → option string)
    (action : AutoModAction) (r : AutoModRule) (m : Member) (w : World) :
  let w' := exec (on_automod_action http_kick action) w in
  fetch_rule_outcome action = FetchReturns (Some r) →
  member action = Some m →
  name r = "Scams" →
  trace w'
  = trace w ++
    [ActionsAppend ("wk:" +:+ pretty (member_id m));
     MemberKick (member_id m) "Suspicious behavior"]
  ∧ actions w' = actions w ++ ["wk:" +:+ pretty (member_id m)]
  ∧ (∀ e, http_kick (member_id m) "Suspicious behavior" = Some e →
          outcome (on_automod_action http_kick action) w = Raised e
          ∧ "wk:" +:+ pretty (member_id m) ∈ actions w').
Proof.
  intros w' Hf Hm Hn. unfold w', exec, outcome.
  rewrite (on_automod_action_designated _ _ r m) by done. cbn [fst snd trace actions].
  split; [done|]. split; [done|].
  intros e He. rewrite He. split; [done|].
  apply elem_of_app. right. left.
Qed.

Lemma tag_logged_before_kick_witness :
  trace (exec (on_automod_action (kick_fails "403 Forbidden")
                 (mkAction (FetchReturns (Some (mkRule 7 "Scams" (mkTrigger keyword [] []))))
                    (Some (mkMember 42))))
           (start R1 ["ub:1"]))
  = trace (start R1 ["ub:1"]) ++
    [ActionsAppend ("wk:" +:+ pretty (member_id (mkMember 42)));
     MemberKick (member_id (mkMember 42)) "Suspicious behavior"]
  ∧ actions (exec (on_automod_action (kick_fails "403 Forbidden")
                     (mkAction (FetchReturns (Some (mkRule 7 "Scams" (mkTrigger keyword [] []))))
                        (Some (mkMember 42))))
               (start R1 ["ub:1"]))
    = actions (start R1 ["ub:1"]) ++ ["wk:" +:+ pretty (member_id (mkMember 42))]
  ∧ (∀ e, kick_fails "403 Forbidden" (member_id (mkMember 42)) "Suspicious behavior" = Some e →
          outcome (on_automod_action (kick_fails "403 Forbidden")
                     (mkAction (FetchReturns (Some (mkRule 7 "Scams" (mkTrigger keyword [] []))))
                        (Some (mkMember 42))))
            (start R1 ["ub:1"]) = Raised e
          ∧ "wk:" +:+ pretty (member_id (mkMember 42))
            ∈ actions (exec (on_automod_action (kick_fails "403 Forbidden")
                               (mkAction
                                  (FetchReturns (Some (mkRule 7 "Scams" (mkTrigger keyword [] []))))
                                  (Some (mkMember 42))))
                         (start R1 ["ub:1"]))).
Proof.
  apply (tag_logged_before_kick (kick_fails "403 Forbidden")
           (mkAction (FetchReturns (Some (mkRule 7 "Scams" (mkTrigger keyword [] []))))
              (Some (mkMember 42)))
           (mkRule 7 "Scams" (mkTrigger keyword [] [])) (mkMember 42) (start R1 ["ub:1"])).
  - reflexivity.
  - reflexivity.
  - reflexivity.
Defined.

(** * Further properties *)

(** ** Reading back what [str] prints *)

Lemma digit_of_pretty_N_char (x : N) :
  (x < 10)%N → digit_of (pretty_N_char x) = Some x.
Proof.
  intros Hx.
  assert (x = 0 ∨ x = 1 ∨ x = 2 ∨ x = 3 ∨ x = 4 ∨ x = 5 ∨ x = 6 ∨ x = 7 ∨ x = 8 ∨ x = 9)%N
    as Hcases by lia.
  repeat destruct Hcases as [->|Hcases]; try subst x; reflexivity.
Qed.

Lemma read_digits_pretty_N_go (x : N) (s : string) :
  read_digits 0 (pretty_N_go x s) = read_digits x s.
Proof.
  revert s. induction (N.lt_wf_0 x) as [x _ IH]. intros s.
  assert (x = 0 ∨ 0 < x)%N as [->|Hpos] by lia.
  - by rewrite pretty_N_go_0.
  - rewrite pretty_N_go_step by done.
    rewrite IH by (by apply N.div_lt).
    cbn [read_digits]. rewrite digit_of_pretty_N_char by (by apply N.mod_lt).
    f_equal. symmetry. by apply N.div_mod.
Qed.

Lemma pretty_N_go_not_empty (x : N) (s : string) :
  (0 < x)%N → pretty_N_go x s ≠ "".
Proof.
  revert s. induction (N.lt_wf_0 x) as [x _ IH]. intros s Hpos.
  rewrite pretty_N_go_step by done.
  destruct (N.eq_0_gt_0_cases (x `div` 10)) as [Hq|Hq].
  - by rewrite Hq, pretty_N_go_0.
  - apply IH; [by apply N.div_lt|done].
Qed.

Lemma read_N_pretty (n : N) : read_N (pretty n) = Some n.
Proof.
  unfold pretty, pretty_N. destruct (decide (n = 0)%N) as [->|Hn]; [done|].
  assert (0 < n)%N as Hpos by lia.
  pose proof (pretty_N_go_not_empty n "" Hpos) as Hne.
  pose proof (read_digits_pretty_N_go n "") as Hr.
  unfold read_N. destruct (pretty_N_go n "") eqn:E; [done|]. by rewrite Hr.
Qed.

Lemma read_N_dash (s : string) : read_N (String (Ascii.Ascii true false true true false true false false) s) = None.
Proof. reflexivity. Qed.

Lemma read_Z_pretty (z : Z) : read_Z (pretty z) = Some z.
Proof.
  destruct z as [|p|p].
  - reflexivity.
  - change (pretty (Z.pos p)) with (pretty (N.pos p)).
    unfold read_Z. by rewrite read_N_pretty.
  - change (pretty (Z.neg p)) with (String (Ascii.Ascii true false true true false true false false) (pretty (N.pos p))).
    unfold read_Z. rewrite read_N_dash, read_N_pretty. reflexivity.
Qed.

(** ** The keyword editor, on every input *)

Section EditorCases.

Variable http_edit : Z → AutoModTrigger → option string.

(** The three ways [add_keyword] can go. *)
Lemma add_keyword_cases (kw : string) (regex : bool) (w : World) :
  (¬ is_keyword_rule (rule w)
   ∧ ∃ content,
       add_keyword http_edit kw regex w
       = (Returned, mkWorld (rule w) (actions w) (trace w ++ [SendMessage content true None])))
  ∨ (is_keyword_rule (rule w) ∧ kw ∈ relevant regex (rule w)
     ∧ ∃ content,
         add_keyword http_edit kw regex w
         = (Returned, mkWorld (rule w) (actions w) (trace w ++ [SendMessage content true None])))
  ∨ (is_keyword_rule (rule w) ∧ (kw ∉ relevant regex (rule w))
     ∧ ∃ ctl content,
         add_keyword http_edit kw regex w
         = (ctl,
            mkWorld (set_relevant regex (relevant regex (rule w) ++ [kw]) (rule w)) (actions w)
              (trace w ++
               [RuleEdit (id (rule w))
                  (trigger (set_relevant regex (relevant regex (rule w) ++ [kw]) (rule w)));
                SendMessage content true None]))
         ∧ (ctl = Next () ∨ ctl = Returned)).
Proof.
  destruct (decide (is_keyword_rule (rule w))) as [Hk|Hk].
  - destruct (decide (kw ∈ relevant regex (rule w))) as [Hin|Hin].
    + right. left. split; [done|]. split; [done|].
      eexists. by apply add_keyword_present.
    + right. right. split; [done|]. split; [done|].
      rewrite add_keyword_fresh by done. cbn zeta.
      destruct (http_edit _ _); eexists _, _; split; [reflexivity|auto..].
  - left. split; [done|]. eexists. by apply add_keyword_wrong_type.
Qed.

(** The three ways [delete_keyword] can go. *)
Lemma delete_keyword_cases (kw : string) (regex : bool) (w : World) :
  (¬ is_keyword_rule (rule w)
   ∧ ∃ content,
       delete_keyword http_edit kw regex w
       = (Returned, mkWorld (rule w) (actions w) (trace w ++ [SendMessage content true None])))
  ∨ (is_keyword_rule (rule w) ∧ (kw ∉ relevant regex (rule w))
     ∧ ∃ content,
         delete_keyword http_edit kw regex w
         = (Returned, mkWorld (rule w) (actions w) (trace w ++ [SendMessage content true None])))
  ∨ (is_keyword_rule (rule w)
     ∧ ∃ pre post ctl content,
         relevant regex (rule w) = pre ++ kw :: post
         ∧ (kw ∉ pre)
         ∧ delete_keyword http_edit kw regex w
           = (ctl,
              mkWorld (set_relevant regex (pre ++ post) (rule w)) (actions w)
                (trace w ++
                 [RuleEdit (id (rule w)) (trigger (set_relevant regex (pre ++ post) (rule w)));
                  SendMessage content true None]))
         ∧ (ctl = Next () ∨ ctl = Returned)).
Proof.
  destruct (decide (is_keyword_rule (rule w))) as [Hk|Hk].
  - destruct (decide (kw ∈ relevant regex (rule w))) as [Hin|Hin].
    + right. right. split; [done|].
      apply list_elem_of_split_l in Hin as (pre & post & Hseq & Hpre).
      exists pre, post.
      rewrite (delete_keyword_found _ _ _ _ pre post) by done. cbn zeta.
      destruct (http_edit _ _); eexists _, _; (split; [done|split; [done|]]);
        (split; [reflexivity|auto]).
    + right. left. split; [done|]. split; [done|].
      eexists. by apply delete_keyword_absent.
  - left. split; [done|]. eexists. by apply delete_keyword_wrong_type.
Qed.

End EditorCases.

Lemma no_duplicates_relevant (regex : bool) (r : AutoModRule) :
  no_duplicates r ↔ NoDup (relevant regex r) ∧ NoDup (relevant (negb regex) r).
Proof. unfold no_duplicates. destruct regex; simpl; tauto. Qed.

Lemma is_keyword_rule_set_relevant (regex : bool) (l : list string) (r : AutoModRule) :
  is_keyword_rule (set_relevant regex l r) ↔ is_keyword_rule r.
Proof. by destruct regex. Qed.

Lemma relevant_other_set_relevant (regex : bool) (l : list string) (r : AutoModRule) :
  relevant (negb regex) (set_relevant regex l r) = relevant (negb regex) r.
Proof. by destruct regex. Qed.

Lemma same_but_relevant_set (regex : bool) (l : list string) (w : World) (t : list Effect) :
  same_but_relevant regex w (mkWorld (set_relevant regex l (rule w)) (actions w) t).
Proof. unfold same_but_relevant. by destruct regex. Qed.

Lemma same_but_relevant_trace (regex : bool) (w : World) (t : list Effect) :
  same_but_relevant regex w (mkWorld (rule w) (actions w) t).
Proof. by unfold same_but_relevant. Qed.

(** X1.  Whatever the rule, the entry and the flag, and whether
    [rule.edit] is accepted or answered with a [discord.HTTPException]
    (the replies [http_edit] ranges over), [add_keyword] and
    [delete_keyword], once their message is delivered, have answered the
    interaction exactly once, with an ephemeral message, and do not end
    by an exception: the [HTTPException] is handled, and the membership
    test makes [list.remove] safe, so that no [ValueError] arises.  They
    submit at most one edit, before the message, and what they submit is
    the whole trigger of the rule object as they leave it.  (An exception
    of another class raised by [rule.edit], or a failure to send the
    message, is outside this statement.) *)
Theorem edit_commands_respond_once (http_edit : Z → AutoModTrigger → option string)
    (kw : string) (regex : bool) (w : World) :
  responds_once (add_keyword http_edit kw regex) w
  ∧ responds_once (delete_keyword http_edit kw regex) w.
Proof.
  unfold responds_once, exec, outcome. split.
  - destruct (add_keyword_cases http_edit kw regex w)
      as [[_ [c ->]]|[(_ & _ & c & ->)|(_ & _ & ctl & c & -> & Hctl)]].
    + exists [], c. cbn [fst snd rule trace]. split; [reflexivity|split; auto].
    + exists [], c. cbn [fst snd rule trace]. split; [reflexivity|split; auto].
    + exists [RuleEdit (id (rule w))
                (trigger (set_relevant regex (relevant regex (rule w) ++ [kw]) (rule w)))], c.
      cbn [fst snd rule trace]. split; [reflexivity|split; auto].
  - destruct (delete_keyword_cases http_edit kw regex w)
      as [[_ [c ->]]|[(_ & _ & c & ->)|(_ & pre & post & ctl & c & _ & _ & -> & Hctl)]].
    + exists [], c. cbn [fst snd rule trace]. split; [reflexivity|split; auto].
    + exists [], c. cbn [fst snd rule trace]. split; [reflexivity|split; auto].
    + exists [RuleEdit (id (rule w)) (trigger (set_relevant regex (pre ++ post) (rule w)))], c.
      cbn [fst snd rule trace]. split; [reflexivity|split; auto].
Qed.

(** X2.  [add_keyword] and [delete_keyword] leave the id, the name and
    the trigger type of the rule object alone, as well as the sequence
    that the flag does not select and the bot's log. *)
Theorem edit_commands_frame (http_edit : Z → AutoModTrigger → option string)
    (kw : string) (regex : bool) (w : World) :
  same_but_relevant regex w (exec (add_keyword http_edit kw regex) w)
  ∧ same_but_relevant regex w (exec (delete_keyword http_edit kw regex) w).
Proof.
  unfold exec. split.
  - destruct (add_keyword_cases http_edit kw regex w)
      as [[_ [c ->]]|[(_ & _ & c & ->)|(_ & _ & ctl & c & -> & _)]];
      cbn [snd]; auto using same_but_relevant_set, same_but_relevant_trace.
  - destruct (delete_keyword_cases http_edit kw regex w)
      as [[_ [c ->]]|[(_ & _ & c & ->)|(_ & pre & post & ctl & c & _ & _ & -> & _)]];
      cbn [snd]; auto using same_but_relevant_set, same_but_relevant_trace.
Qed.

(** X3.  A rule object whose two sequences hold no entry twice still has
    that property after [add_keyword] and after [delete_keyword],
    whatever the arguments and Discord's reply. *)
Theorem edit_commands_keep_no_duplicates (http_edit : Z → AutoModTrigger → option string)
    (kw : string) (regex : bool) (w : World) :
  no_duplicates (rule w) →
  no_duplicates (rule (exec (add_keyword http_edit kw regex) w))
  ∧ no_duplicates (rule (exec (delete_keyword http_edit kw regex) w)).
Proof.
  intros Hnd. pose proof Hnd as [Hrel Hoth]%(no_duplicates_relevant regex).
  unfold exec. split.
  - destruct (add_keyword_cases http_edit kw regex w)
      as [[_ [c ->]]|[(_ & _ & c & ->)|(_ & Hfresh & ctl & c & -> & _)]]; [done..|].
    cbn [snd rule]. apply (no_duplicates_relevant regex).
    rewrite relevant_set_relevant, relevant_other_set_relevant. split; [|done].
    apply NoDup_app. split; [done|]. split; [|apply NoDup_singleton].
    intros x Hx ->%list_elem_of_singleton. done.
  - destruct (delete_keyword_cases http_edit kw regex w)
      as [[_ [c ->]]|[(_ & _ & c & ->)|(_ & pre & post & ctl & c & Hseq & _ & -> & _)]];
      [done..|].
    cbn [snd rule]. apply (no_duplicates_relevant regex).
    rewrite relevant_set_relevant, relevant_other_set_relevant. split; [|done].
    rewrite Hseq in Hrel. apply NoDup_app in Hrel as (Hpre & Hdisj & Hpost).
    apply NoDup_cons in Hpost as [_ Hpost].
    apply NoDup_app. split; [done|]. split; [|done].
    intros x Hx Hx'. apply (Hdisj x Hx). by right.
Qed.

Lemma edit_commands_keep_no_duplicates_witness :
  no_duplicates (rule (exec (add_keyword accept_all "prize" false) (start R1 [])))
  ∧ no_duplicates (rule (exec (delete_keyword accept_all "prize" false) (start R1 []))).
Proof.
  apply (edit_commands_keep_no_duplicates accept_all "prize" false (start R1 [])).
  split; apply (bool_decide_unpack _); by vm_compute.
Defined.

(** X4.  After [add_keyword] has run on a keyword rule, whatever it
    answered, a second [add_keyword] of the same entry with the same flag
    on that rule object submits nothing and answers that the entry is
    already in the filter. *)
Theorem add_keyword_twice (http_edit http_edit' : Z → AutoModTrigger → option string)
    (kw : string) (regex : bool) (w : World) :
  let w1 := exec (add_keyword http_edit kw regex) w in
  is_keyword_rule (rule w) →
  add_keyword http_edit' kw regex w1
  = (Returned,
     mkWorld (rule w1) (actions w1)
       (trace w1 ++
        [SendMessage
           (if regex then "This regex expression is already in the filter."
            else "This keyword is already in the filter.") true None])).
Proof.
  intros w1 Hk. apply add_keyword_present; unfold w1, exec.
  - destruct (add_keyword_cases http_edit kw regex w)
      as [[? _]|[(_ & _ & c & ->)|(_ & _ & ctl & c & -> & _)]]; [done|done|].
    by apply is_keyword_rule_set_relevant.
  - destruct (add_keyword_cases http_edit kw regex w)
      as [[? _]|[(_ & Hin & c & ->)|(_ & _ & ctl & c & -> & _)]]; [done|done|].
    cbn [snd rule]. rewrite relevant_set_relevant.
    apply elem_of_app. right. left.
Qed.

Lemma add_keyword_twice_witness :
  add_keyword accept_all "prize" false
    (exec (add_keyword (reject_all "400 Bad Request") "prize" false) (start R1 []))
  = (Returned,
     mkWorld
       (rule (exec (add_keyword (reject_all "400 Bad Request") "prize" false) (start R1 [])))
       (actions (exec (add_keyword (reject_all "400 Bad Request") "prize" false) (start R1 [])))
       (trace (exec (add_keyword (reject_all "400 Bad Request") "prize" false) (start R1 []))
        ++ [SendMessage "This keyword is already in the filter." true None])).
Proof.
  apply (add_keyword_twice (reject_all "400 Bad Request") accept_all "prize" false
           (start R1 [])).
  reflexivity.
Defined.

(** X5.  After [delete_keyword] has run on a keyword rule whose relevant
    sequence holds no entry twice, whatever it answered, a second
    [delete_keyword] of the same entry with the same flag on that rule
    object submits nothing and answers that the entry is not in the
    filter. *)
Theorem delete_keyword_twice (http_edit http_edit' : Z → AutoModTrigger → option string)
    (kw : string) (regex : bool) (w : World) :
  let w1 := exec (delete_keyword http_edit kw regex) w in
  is_keyword_rule (rule w) →
  NoDup (relevant regex (rule w)) →
  delete_keyword http_edit' kw regex w1
  = (Returned,
     mkWorld (rule w1) (actions w1)
       (trace w1 ++
        [SendMessage
           (if regex then "This regex expression is not in the filter."
            else "This keyword is not in the filter.") true None])).
Proof.
  intros w1 Hk Hnd. apply delete_keyword_absent; unfold w1, exec.
  - destruct (delete_keyword_cases http_edit kw regex w)
      as [[? _]|[(_ & _ & c & ->)|(_ & pre & post & ctl & c & _ & _ & -> & _)]];
      [done|done|].
    by apply is_keyword_rule_set_relevant.
  - destruct (delete_keyword_cases http_edit kw regex w)
      as [[? _]|[(_ & Hout & c & ->)|(_ & pre & post & ctl & c & Hseq & Hpre & -> & _)]];
      [done|done|].
    cbn [snd rule]. rewrite relevant_set_relevant.
    rewrite Hseq in Hnd. apply NoDup_app in Hnd as (_ & _ & Hpost).
    apply NoDup_cons in Hpost as [Hpost _].
    by apply not_elem_of_app.
Qed.

Lemma delete_keyword_twice_witness :
  delete_keyword accept_all "money" false
    (exec (delete_keyword accept_all "money" false) (start R1 []))
  = (Returned,
     mkWorld
       (rule (exec (delete_keyword accept_all "money" false) (start R1 [])))
       (actions (exec (delete_keyword accept_all "money" false) (start R1 [])))
       (trace (exec (delete_keyword accept_all "money" false) (start R1 []))
        ++ [SendMessage "This keyword is not in the filter." true None])).
Proof.
  apply (delete_keyword_twice accept_all accept_all "money" false (start R1 [])).
  - reflexivity.
  - apply (bool_decide_unpack _). by vm_compute.
Defined.

(** X6.  Deleting an entry that occurs once in the relevant sequence and
    then adding it again does not restore the sequence: the entry ends up
    last.  The sequence has the same elements as before, and it is the
    same sequence only when the entry was already last. *)
Theorem delete_then_add_moves_last (http_edit http_edit' : Z → AutoModTrigger → option string)
    (kw : string) (regex : bool) (w : World) (pre post : list string) :
  let w1 := exec (delete_keyword http_edit kw regex) w in
  let w2 := exec (add_keyword http_edit' kw regex) w1 in
  is_keyword_rule (rule w) →
  relevant regex (rule w) = pre ++ kw :: post →
  kw ∉ pre →
  kw ∉ post →
  relevant regex (rule w2) = pre ++ post ++ [kw]
  ∧ relevant regex (rule w2) ≡ₚ relevant regex (rule w)
  ∧ (relevant regex (rule w2) = relevant regex (rule w) ↔ post = []).
Proof.
  intros w1 w2 Hk Hseq Hpre Hpost.
  assert (rule w1 = set_relevant regex (pre ++ post) (rule w)) as Hr1.
  { unfold w1, exec. rewrite (delete_keyword_found _ _ _ _ pre post) by done.
    cbn zeta. by destruct (http_edit _ _). }
  assert (relevant regex (rule w2) = pre ++ post ++ [kw]) as Hr2.
  { unfold w2, exec. rewrite add_keyword_fresh.
    - cbn zeta. rewrite Hr1, relevant_set_relevant.
      destruct (http_edit' _ _); cbn [snd rule];
        by rewrite relevant_set_relevant, <-app_assoc.
    - rewrite Hr1. by apply is_keyword_rule_set_relevant.
    - rewrite Hr1, relevant_set_relevant. by apply not_elem_of_app. }
  rewrite Hr2, Hseq. split; [done|]. split.
  - apply Permutation_app_head. symmetry. apply Permutation_cons_append.
  - split.
    + intros Heq%app_inv_head. destruct post as [|p post]; [done|].
      injection Heq as -> _. exfalso. apply Hpost. left.
    + by intros ->.
Qed.

Lemma delete_then_add_moves_last_witness :
  relevant false
    (rule (exec (add_keyword accept_all "free" false)
             (exec (delete_keyword accept_all "free" false) (start R1 []))))
  = [] ++ ["money"] ++ ["free"]
  ∧ relevant false
      (rule (exec (add_keyword accept_all "free" false)
               (exec (delete_keyword accept_all "free" false) (start R1 []))))
    ≡ₚ relevant false (rule (start R1 []))
  ∧ (relevant false
       (rule (exec (add_keyword accept_all "free" false)
                (exec (delete_keyword accept_all "free" false) (start R1 []))))
     = relevant false (rule (start R1 [])) ↔ ["money"] = []).
Proof.
  apply (delete_then_add_moves_last accept_all accept_all "free" false (start R1 [])
           [] ["money"]).
  - reflexivity.
  - reflexivity.
  - apply not_elem_of_nil.
  - apply (bool_decide_unpack _). by vm_compute.
Defined.

(** ** Search, on every snapshot *)

Lemma str_app_assoc (a b c : string) : (a +:+ b) +:+ c = a +:+ b +:+ c.
Proof.
  induction a as [|x a IH]; [done|]. by rewrite !app_String, IH.
Qed.

Lemma substring_of_trans (a b c : string) :
  substring_of a b → substring_of b c → substring_of a c.
Proof.
  intros (p1 & q1 & ->) (p2 & q2 & ->).
  exists (p2 +:+ p1), (q1 +:+ q2). by rewrite !str_app_assoc.
Qed.

Lemma length_filter_impl {A} (P Q : A → Prop)
    `{!∀ x, Decision (P x)} `{!∀ x, Decision (Q x)} (l : list A) :
  (∀ x, P x → Q x) → (length (filter P l) ≤ length (filter Q l))%nat.
Proof.
  intros HPQ. induction l as [|x l IH]; [done|].
  rewrite !filter_cons.
  destruct (decide (P x)) as [HP|HP].
  - rewrite decide_True by auto. simpl. lia.
  - destruct (decide (Q x)); simpl; lia.
Qed.

Lemma sublist_filter_impl {A} (P Q : A → Prop)
    `{!∀ x, Decision (P x)} `{!∀ x, Decision (Q x)} (l : list A) :
  (∀ x, P x → Q x) → filter P l `sublist_of` filter Q l.
Proof.
  intros HPQ. induction l as [|x l IH]; [done|].
  rewrite !filter_cons.
  destruct (decide (P x)) as [HP|HP].
  - rewrite decide_True by auto. by apply sublist_skip.
  - destruct (decide (Q x)); [by apply sublist_cons|done].
Qed.

Lemma match_total_narrowing (q q' : string) (rules : list AutoModRule) :
  substring_of q q' → (match_total q' rules ≤ match_total q rules)%nat.
Proof.
  intros Hq. induction rules as [|r rules IH]; [done|].
  rewrite !match_total_cons. unfold match_count, found_in.
  destruct (decide (is_keyword_rule r)); [|lia].
  pose proof (length_filter_impl (substring_of q') (substring_of q)
                (keyword_filter (trigger r))) as Hlen.
  specialize (Hlen (λ k Hk, substring_of_trans q q' k Hq Hk)). lia.
Qed.

(** Where [d[k] = v] puts the entry: in front of it stand entries with
    other keys, and all entries around it were there before. *)
Lemma dict_set_split {V} (k : string) (v : V) (d : dict V) :
  ∃ l1 l2, dict_set k v d = l1 ++ (k, v) :: l2
         ∧ (k ∉ l1.*1)
         ∧ ∀ e, e ∈ l1 ++ l2 → e ∈ d.
Proof.
  induction d as [|[k' v'] d IH]; simpl.
  - exists [], []. split; [done|]. split; [apply not_elem_of_nil|done].
  - case_decide as Hk.
    + exists [], d. split; [done|]. split; [apply not_elem_of_nil|].
      intros e He. by right.
    + destruct IH as (l1 & l2 & -> & Hl1 & Hsub).
      exists ((k', v') :: l1), l2. split; [done|]. split.
      * rewrite fmap_cons. by apply not_elem_of_cons.
      * intros e [->|He]%elem_of_cons; [left|right; by apply Hsub].
Qed.

Lemma dict_append_middle {A} (k : string) (x : A) (l1 l2 : dict (list A)) (acc : list A) :
  k ∉ l1.*1 → dict_append k x (l1 ++ (k, acc) :: l2) = l1 ++ (k, acc ++ [x]) :: l2.
Proof.
  induction l1 as [|[k' v'] l1 IH]; intros Hk; simpl.
  - by case_decide.
  - rewrite fmap_cons, not_elem_of_cons in Hk. destruct Hk as [Hne Hk].
    case_decide; [by subst|]. by rewrite IH.
Qed.

Lemma search_keyword_step_middle (word n : string) (kws : list string) l1 l2 acc c :
  n ∉ l1.*1 →
  (fold_left (search_keyword_step word n) kws (l1 ++ (n, acc) :: l2, c)).1
  = l1 ++ (n, acc ++ (describe word <$> filter (substring_of word) kws)) :: l2.
Proof.
  intros Hn. revert acc c. induction kws as [|k kws IH]; intros acc c; simpl.
  - by rewrite app_nil_r.
  - rewrite filter_cons, str_in_decide.
    destruct (decide (substring_of word k)) as [Hk|Hk].
    + rewrite bool_decide_eq_true_2 by done.
      rewrite dict_append_middle by done. rewrite IH.
      by rewrite fmap_cons, <-app_assoc.
    + rewrite bool_decide_eq_false_2 by done. apply IH.
Qed.

(** Every entry of [matches] is the entry of some keyword rule of the
    snapshot, whatever the names of the rules. *)
Lemma search_rule_step_entries (word : string) (all rules : list AutoModRule) d c :
  (∀ r, r ∈ rules → r ∈ all) →
  (∀ e, e ∈ d → ∃ r, r ∈ all ∧ is_keyword_rule r ∧ e = matches_entry word r) →
  ∀ e, e ∈ (fold_left (search_rule_step word) rules (d, c)).1 →
       ∃ r, r ∈ all ∧ is_keyword_rule r ∧ e = matches_entry word r.
Proof.
  revert d c. induction rules as [|r rules IH]; intros d c Hall Hd; [done|].
  cbn [fold_left]. unfold search_rule_step at 2.
  assert (∀ r', r' ∈ rules → r' ∈ all) as Hall' by (intros r' ?; apply Hall; by right).
  destruct (decide (type (trigger r) ≠ keyword)) as [Hty|Hty]; [by apply IH|].
  apply dec_stable in Hty.
  destruct (dict_set_split (name r) (@nil string) d) as (l1 & l2 & -> & Hl1 & Hsub).
  destruct (fold_left _ (keyword_filter _) _) as [d' c'] eqn:E.
  apply (f_equal fst) in E. cbn [fst] in E.
  rewrite search_keyword_step_middle in E by done. subst d'.
  apply IH; [done|].
  intros e [He|[->|He]%elem_of_cons]%elem_of_app.
  - apply Hd, Hsub, elem_of_app. by left.
  - exists r. split; [apply Hall; left|]. done.
  - apply Hd, Hsub, elem_of_app. by right.
Qed.

Lemma search_text_sound (word : string) (rules : list AutoModRule) :
  search_text (search_rules word rules).1 = ""
  ∨ ∃ r, r ∈ rules ∧ has_match word r
       ∧ search_text (search_rules word rules).1
         = rule_text (name r) (describe word <$> found_in word r).
Proof.
  unfold search_text. rewrite search_text_step_last.
  destruct (last _) as [e|] eqn:Hlast; [|by left]. right.
  apply last_Some_elem_of, list_elem_of_filter in Hlast as [Hne He].
  unfold search_rules in He.
  apply (search_rule_step_entries word rules) in He as (r & Hr & Hk & ->); [|done|].
  - exists r. split; [done|]. split; [|done]. split; [done|].
    intros Hnil. apply Hne. unfold matches_entry. simpl. by rewrite Hnil.
  - intros e' He'. by apply elem_of_nil in He'.
Qed.

(** X7.  Whatever the snapshot (rules may share names), when there is a
    match [search_keyword] sends one message with the count and a file
    named "matches.txt" whose text is either empty or the block of a
    single keyword rule of the snapshot that has a match: its name, then
    its matching keywords in filter order.  The text never mixes rules
    and never shows a rule that is not keyword-typed. *)
Theorem search_keyword_text_sound (rules : list AutoModRule) (word : string) (w : World) :
  match_total word rules ≠ 0 →
  ∃ text,
    search_keyword rules word w
    = (Next (),
       mkWorld (rule w) (actions w)
         (trace w ++
          [SendMessage (pretty (match_total word rules) +:+ " matches found.") false
             (Some (mkFile text "matches.txt"))]))
    ∧ (text = ""
       ∨ ∃ r, r ∈ rules ∧ has_match word r
            ∧ text = rule_text (name r) (describe word <$> found_in word r)).
Proof.
  intros Htotal. exists (search_text (search_rules word rules).1).
  split; [|apply search_text_sound].
  pose proof (search_rules_count word rules) as Hc.
  unfold search_keyword. destruct (search_rules word rules) as [d c].
  cbn [fst snd] in *. subst c. by rewrite decide_False by done.
Qed.

Lemma search_keyword_text_sound_witness :
  ∃ text,
    search_keyword shadowed_rules "x" (start R1 [])
    = (Next (),
       mkWorld (rule (start R1 [])) (actions (start R1 []))
         (trace (start R1 []) ++
          [SendMessage (pretty (match_total "x" shadowed_rules) +:+ " matches found.") false
             (Some (mkFile text "matches.txt"))]))
    ∧ (text = ""
       ∨ ∃ r, r ∈ shadowed_rules ∧ has_match "x" r
            ∧ text = rule_text (name r) (describe "x" <$> found_in "x" r)).
Proof.
  apply (search_keyword_text_sound shadowed_rules "x" (start R1 [])).
  by vm_compute.
Defined.

(** X8.  Making the query longer never finds more: when [q] is part of
    [q'], the count for [q'] is at most the count for [q], on every
    snapshot. *)
Theorem search_count_narrowing (rules : list AutoModRule) (q q' : string) :
  substring_of q q' →
  ((search_rules q' rules).2 ≤ (search_rules q rules).2)%nat.
Proof.
  intros Hq. rewrite !search_rules_count. by apply match_total_narrowing.
Qed.

Lemma search_count_narrowing_witness :
  ((search_rules "ee" [R1; R3]).2 ≤ (search_rules "e" [R1; R3]).2)%nat.
Proof.
  apply (search_count_narrowing [R1; R3] "e" "ee").
  by exists "e", "".
Defined.

(** ** Autocomplete and the transformer *)

Lemma suggested_narrowing (p p' : string) (r : AutoModRule) :
  substring_of p p' → suggested p' r → suggested p r.
Proof.
  intros Hp [Hk Hs]. split; [done|]. by apply (substring_of_trans p p').
Qed.

(** X9.  Typing more narrows the suggestions: when the partial input [p]
    is part of [p'], the suggestions for [p'] are among the suggestions
    for [p], in the same order. *)
Theorem rules_autocomplete_narrowing (rules : list AutoModRule) (p p' : string) :
  substring_of p p' →
  rules_autocomplete rules p' `sublist_of` rules_autocomplete rules p.
Proof.
  intros Hp. rewrite !rules_autocomplete_filter.
  apply fmap_sublist, sublist_filter_impl.
  intros r. by apply suggested_narrowing.
Qed.

Lemma rules_autocomplete_narrowing_witness :
  rules_autocomplete [R1; R2; R3] "R3" `sublist_of` rules_autocomplete [R1; R2; R3] "".
Proof.
  apply (rules_autocomplete_narrowing [R1; R2; R3] "" "R3").
  apply substring_of_nil.
Defined.

(** X10.  In a snapshot whose rules have pairwise distinct ids, no two
    suggestions carry the same value: the value names one rule. *)
Theorem rules_autocomplete_values_distinct (rules : list AutoModRule) (p : string) :
  NoDup (id <$> rules) →
  NoDup (choice_value <$> rules_autocomplete rules p).
Proof.
  intros Hnd. rewrite rules_autocomplete_filter, <-list_fmap_compose.
  change (choice_value ∘ choice_of) with (pretty ∘ id).
  rewrite list_fmap_compose. apply (NoDup_fmap_2 _).
  eapply sublist_NoDup; [done|].
  apply fmap_sublist, sublist_filter.
Qed.

Lemma rules_autocomplete_values_distinct_witness :
  NoDup (choice_value <$> rules_autocomplete [R1; R2; R3] "R").
Proof.
  apply (rules_autocomplete_values_distinct [R1; R2; R3] "R").
  apply (bool_decide_unpack _). by vm_compute.
Defined.

(** X11.  Autocomplete and the transformer fit together.  Assume [int]
    reads back what [str] prints for an integer, and the guild still
    answers a lookup of each rule of the snapshot by its id with that
    rule.  Then the value of every suggestion is transformed into the
    rule the suggestion was made for, and that rule is keyword-typed, so
    the first guard of [add_keyword] and [delete_keyword] does not fire
    on it. *)
Theorem autocomplete_then_transform (py_int : string → option Z)
    (fetch_automod_rule : Z → RuleLookup) (rules : list AutoModRule) (p : string) (c : Choice) :
  (∀ i : Z, py_int (pretty i) = Some i) →
  (∀ r, r ∈ rules → fetch_automod_rule (id r) = LookupReturns r) →
  c ∈ rules_autocomplete rules p →
  ∃ r, r ∈ rules
     ∧ c = mkChoice (name r) (pretty (id r))
     ∧ transform py_int fetch_automod_rule (choice_value c) = inl r
     ∧ type (trigger r) = keyword.
Proof.
  intros Hint Hfetch Hc.
  rewrite rules_autocomplete_filter, list_elem_of_fmap in Hc.
  destruct Hc as [r [-> Hr]]. apply list_elem_of_filter in Hr as [[Hk _] Hr].
  exists r. split; [done|]. split; [done|]. split; [|done].
  unfold transform, choice_of. cbn [choice_value].
  by rewrite Hint, Hfetch.
Qed.

Lemma autocomplete_then_transform_witness :
  ∃ r, r ∈ [R1; R2; R3]
     ∧ mkChoice "R3" "3" = mkChoice (name r) (pretty (id r))
     ∧ transform read_Z (guild_lookup [R1; R2; R3]) (choice_value (mkChoice "R3" "3")) = inl r
     ∧ type (trigger r) = keyword.
Proof.
  apply (autocomplete_then_transform read_Z (guild_lookup [R1; R2; R3]) [R1; R2; R3] "3"
           (mkChoice "R3" "3")).
  - apply read_Z_pretty.
  - apply Forall_forall. apply (bool_decide_unpack _). by vm_compute.
  - apply (bool_decide_unpack _). by vm_compute.
Defined.

(** ** The reactor, on every event *)

(** X12.  Whatever the event and whatever the kick does,
    [on_automod_action] only ever extends the bot's log, by at most one
    tag, and leaves the entries already there in place; it sends no
    message and submits no edit; and an exception leaves it only when
    resolving the rule raised it or the kick raised it. *)
Theorem on_automod_action_log_grows (http_kick : Z → string → option string)
    (action : AutoModAction) (w : World) :
  let w' := exec (on_automod_action http_kick action) w in
  ∃ tags new,
    actions w' = actions w ++ tags
    ∧ (length tags ≤ 1)%nat
    ∧ trace w' = trace w ++ new
    ∧ (∀ content ephemeral file, SendMessage content ephemeral file ∉ new)
    ∧ (∀ i t, RuleEdit i t ∉ new)
    ∧ (∀ e, outcome (on_automod_action http_kick action) w = Raised e →
            fetch_rule_outcome action = FetchRaises e
            ∨ ∃ m, member action = Some m
                 ∧ http_kick (member_id m) "Suspicious behavior" = Some e).
Proof.
  intros w'. unfold w', exec, outcome.
  destruct (fetch_rule_outcome action) as [[r|]|e0] eqn:Hf;
    [destruct (member action) as [m|] eqn:Hm;
     [destruct (decide (name r = "Scams")) as [Hn|Hn]|]|..].
  1: {
    rewrite (on_automod_action_designated _ _ r m) by done. cbn [fst snd actions trace].
    exists [kick_tag m],
      [ActionsAppend (kick_tag m); MemberKick (member_id m) "Suspicious behavior"].
    split; [done|]. split; [done|]. split; [done|].
    split; [intros ??? [?|[?|[]%elem_of_nil]%elem_of_cons]%elem_of_cons; done|].
    split; [intros ?? [?|[?|[]%elem_of_nil]%elem_of_cons]%elem_of_cons; done|].
    intros e He. right. exists m. split; [done|].
    by destruct (http_kick _ _); simplify_eq.
  }
  all: exists [], []; run_cmd; rewrite Hf, ?Hm, ?decide_False by done;
    cbn [fst snd actions trace]; rewrite !app_nil_r.
  all: split; [done|]; split; [simpl; lia|]; split; [done|].
  all: split; [intros ???; apply not_elem_of_nil|].
  all: split; [intros ??; apply not_elem_of_nil|].
  all: intros e He; simplify_eq; by left.
Qed.

Lemma str_app_inj_l (p a b : string) : p +:+ a = p +:+ b → a = b.
Proof.
  induction p as [|c p IH]; [done|].
  rewrite !app_String. intros H. injection H as H. by apply IH.
Qed.

Lemma kick_tag_inj (m m' : Member) : kick_tag m = kick_tag m' → member_id m = member_id m'.
Proof.
  unfold kick_tag. intros H%str_app_inj_l. by apply (inj pretty).
Qed.

(** X13.  The tag identifies the member: when two events that resolve to
    a rule called "Scams" and to a member leave the same last entry in
    the log, they concern members with the same id. *)
Theorem kick_tag_identifies_member (http_kick http_kick' : Z → string → option string)
    (action action' : AutoModAction) (r r' : AutoModRule) (m m' : Member) (w w' : World) :
  fetch_rule_outcome action = FetchReturns (Some r) →
  member action = Some m →
  name r = "Scams" →
  fetch_rule_outcome action' = FetchReturns (Some r') →
  member action' = Some m' →
  name r' = "Scams" →
  last (actions (exec (on_automod_action http_kick action) w))
  = last (actions (exec (on_automod_action http_kick' action') w')) →
  member_id m = member_id m'.
Proof.
  intros Hf Hm Hn Hf' Hm' Hn'. unfold exec.
  rewrite (on_automod_action_designated _ _ r m) by done.
  rewrite (on_automod_action_designated _ _ r' m') by done.
  cbn [snd actions]. rewrite !last_snoc. intros Htag.
  apply kick_tag_inj. congruence.
Qed.

Lemma kick_tag_identifies_member_witness :
  member_id (mkMember 42) = member_id (mkMember 42).
Proof.
  apply (kick_tag_identifies_member kick_ok (kick_fails "403 Forbidden")
           (mkAction (FetchReturns (Some (mkRule 7 "Scams" (mkTrigger keyword [] []))))
              (Some (mkMember 42)))
           (mkAction (FetchReturns (Some (mkRule 9 "Scams" (mkTrigger spam [] []))))
              (Some (mkMember 42)))
           (mkRule 7 "Scams" (mkTrigger keyword [] []))
           (mkRule 9 "Scams" (mkTrigger spam [] []))
           (mkMember 42) (mkMember 42) (start R1 []) (start R2 ["wk:7"])).
  all: reflexivity.
Defined.

Lemma filter_nil_iff {A} (P : A → Prop) `{!∀ x, Decision (P x)} (l : list A) :
  filter P l = [] ↔ ∀ x, x ∈ l → ¬ P x.
Proof.
  split.
  - intros Hnil x Hx HP.
    assert (x ∈ filter P l) as Hin by (by apply list_elem_of_filter).
    rewrite Hnil in Hin. by apply elem_of_nil in Hin.
  - intros Hno. destruct (filter P l) as [|y l'] eqn:E; [done|].
    assert (y ∈ filter P l) as [HP Hy]%list_elem_of_filter by (rewrite E; left).
    by destruct (Hno y).
Qed.

Lemma match_total_zero (word : string) (rules : list AutoModRule) :
  match_total word rules = 0
  ↔ ∀ r k, r ∈ rules → is_keyword_rule r → k ∈ keyword_filter (trigger r) →
           ¬ substring_of word k.
Proof.
  induction rules as [|r rules IH].
  - split; [|done]. intros _ r k Hr. by apply elem_of_nil in Hr.
  - rewrite match_total_cons. split.
    + intros Hsum r' k [->|Hr']%elem_of_cons Hk Hin.
      * unfold match_count in Hsum. rewrite decide_True in Hsum by done.
        assert (found_in word r = []) as Hnil
          by (apply length_zero_iff_nil; lia).
        by apply (proj1 (filter_nil_iff _ _) Hnil).
      * assert (match_total word rules = 0) as Hz by lia.
        by apply (proj1 IH Hz r' k).
    + intros Hno.
      assert (match_total word rules = 0) as ->.
      { apply IH. intros r' k Hr'. apply Hno. by right. }
      unfold match_count. destruct (decide (is_keyword_rule r)) as [Hk|Hk]; [|done].
      assert (found_in word r = []) as ->; [|done].
      apply filter_nil_iff. intros k Hin. apply (Hno r k); [left|done..].
Qed.

(** X14.  [search_keyword] answers "No match found.", without a file,
    exactly when no literal keyword of any keyword rule of the snapshot
    contains the query; whatever the regex patterns and whatever the
    rules of other types hold. *)
Theorem search_keyword_no_match (rules : list AutoModRule) (word : string) (w : World) :
  trace (exec (search_keyword rules word) w)
  = trace w ++ [SendMessage "No match found." false None]
  ↔ ∀ r k, r ∈ rules → type (trigger r) = keyword → k ∈ keyword_filter (trigger r) →
           ¬ substring_of word k.
Proof.
  rewrite search_keyword_run, search_rules_count, <-match_total_zero. cbn [trace].
  destruct (decide (match_total word rules = 0)) as [Hz|Hz]; [done|].
  split; [|done]. intros Heq%app_inv_head. discriminate Heq.
Qed.
